(** * eos-etl: the adaptive batch executor and the action mapper

    A shallow embedding of
    - [blockchainetl/executors/batch_work_executor.py] (class
      [BatchWorkExecutor]) and
    - [eosetl/mappers/action_mapper.py] (class [EosActionMapper]),
    with the properties of the specification stated and proved over it. *)

From Stdlib Require Import ZArith List Bool Lia Sorted Permutation.
From stdpp Require Import functions gmap strings list fin_maps.
Import ListNotations.

Local Open Scope Z_scope.

(* ===================================================================== *)
(** * Python numbers: [int(n / 2)]                                        *)
(* ===================================================================== *)

(** In Python 3 [n / 2] on two [int]s is true division: the exact quotient
    is rounded to the nearest IEEE-754 double (53 significant bits, ties to
    even); [int(...)] then truncates the double toward zero.

    The division raises [OverflowError] when the quotient is not a finite
    double, that is from magnitude [2^1024] on.  The executor divides only
    when [batch_size == len(batch)], and [len] never exceeds [sys.maxsize]
    ([2^63 - 1]), so that case is out of reach and is not represented
    ([int_truediv_2_finite] below). *)
Module PyNum.

Definition mantissa_bits : Z := 53.

Definition sys_maxsize : Z := 2 ^ 63 - 1.

(** Magnitudes from [2^1024] on are not finite doubles. *)
Definition double_overflow : Z := 2 ^ 1024.

(** Nearest integer to [n] with at most 53 significant bits, ties to
    even; [n] is non-negative. *)
Definition round_to_double (n : Z) : Z :=
  let nbits := Z.log2 n + 1 in
  if nbits <=? mantissa_bits then n
  else
    let sh := nbits - mantissa_bits in
    let q := Z.shiftr n sh in
    let r := Z.land n (Z.ones sh) in
    let half := Z.shiftl 1 (sh - 1) in
    let q' := if (half <? r) || ((r =? half) && Z.odd q) then q + 1 else q in
    Z.shiftl q' sh.

(** [int(n / 2)].  Halving a double is exact (integers meet no
    subnormals), so the quotient has magnitude [round_to_double |n| / 2];
    the sign is put back after the magnitude is truncated. *)
Definition int_truediv_2 (n : Z) : Z :=
  Z.sgn n * (round_to_double (Z.abs n) / 2).

End PyNum.

(* ===================================================================== *)
(** * blockchainetl/executors/batch_work_executor.py                      *)
(* ===================================================================== *)

Module Executor.

(** Modelled from the spec: what the worker threads of the pool do around
    one call of [submit] (or of [shutdown]), as the scheduler decides it.
    Each number names a task in flight by its position, oldest first, and
    lets that task take one step. *)
Record Turn : Type := mkTurn {
  before_check : list nat;
  while_blocked : list nat;
  after_enqueue : list nat
}.

Section WithTypes.

(** Work items are opaque; [Exn] is the type of raised exceptions; [H] is
    whatever state the caller's handler reads and writes. *)
Context {Item Exn H : Type}.

(** [work_handler(batch)]: runs on the handler's state and either returns
    ([None]) or raises ([Some e]). *)
Definition Handler : Type := H -> list Item -> H * option Exn.

(** [len(batch)] *)
Definition len (batch : list Item) : Z := Z.of_nat (length batch).

(** Where a processing unit stands in [_fail_safe_execute]: before the
    invocation on the batch (lines 55-58), in the [except] block before
    [self.batch_size] is read (line 64), before the guarded assignment of
    lines 66-70 with the value that was read, inside the loop of lines
    72-73 with the items still to come, before line 74, or at its end with
    the exception that left it, if any.  Between two stages other threads
    may run. *)
Inductive Stage : Type :=
| AtCall
| AtRead
| AtWrite (local : Z)
| AtRetry (rest : list Item)
| AtTrack
| Ended (outcome : option Exn).

(** A task in flight: the closure
    [(self._fail_safe_execute, work_handler, batch)] handed to [submit],
    and where its execution stands. *)
Record Task : Type := mkTask {
  task_handler : Handler;
  task_batch : list Item;
  task_stage : Stage
}.

(** The executor object together with the world it acts on.

    Fields of [self] set by [__init__]: [batch_size], [max_workers],
    [retry_exceptions] (the [except] clause tests membership, here a
    predicate on exceptions), [exponential_backoff], [counter].

    [self.progress_logger] and [self.executor] are objects of classes that
    live outside the two source files; their state is [processed],
    [total_items], [finished] and [pending], [terminal_error] (see the
    modelled operations below).  [pending] holds the tasks submitted and
    not yet completed, oldest first.

    [hstate] is the handler's state, and [schedule] holds the turns the
    pool's scheduler is still to take, one for each [submit] or [shutdown]
    to come.  [calls] records every invocation of the handler, oldest
    first, and [size_writes] every value assigned to [self.batch_size]
    after construction, latest first; both are observation logs and are
    never read by the program. *)
Record World : Type := mkWorld {
  batch_size : Z;
  max_workers : Z;
  retry_exceptions : Exn -> bool;
  exponential_backoff : bool;
  counter : Z;
  processed : Z;
  total_items : option Z;
  finished : bool;
  pending : list Task;
  terminal_error : option Exn;
  hstate : H;
  schedule : list Turn;
  calls : list (list Item);
  size_writes : list Z
}.

Definition set_batch_size (v : Z) (w : World) : World :=
  mkWorld v (max_workers w) (retry_exceptions w) (exponential_backoff w)
          (counter w) (processed w) (total_items w) (finished w)
          (pending w) (terminal_error w) (hstate w) (schedule w) (calls w)
          (v :: size_writes w).

Definition set_counter (v : Z) (w : World) : World :=
  mkWorld (batch_size w) (max_workers w) (retry_exceptions w)
          (exponential_backoff w) v (processed w) (total_items w)
          (finished w) (pending w) (terminal_error w) (hstate w)
          (schedule w) (calls w) (size_writes w).

Definition set_processed (v : Z) (w : World) : World :=
  mkWorld (batch_size w) (max_workers w) (retry_exceptions w)
          (exponential_backoff w) (counter w) v (total_items w)
          (finished w) (pending w) (terminal_error w) (hstate w)
          (schedule w) (calls w) (size_writes w).

Definition set_total_items (v : option Z) (w : World) : World :=
  mkWorld (batch_size w) (max_workers w) (retry_exceptions w)
          (exponential_backoff w) (counter w) (processed w) v
          (finished w) (pending w) (terminal_error w) (hstate w)
          (schedule w) (calls w) (size_writes w).

Definition set_finished (v : bool) (w : World) : World :=
  mkWorld (batch_size w) (max_workers w) (retry_exceptions w)
          (exponential_backoff w) (counter w) (processed w) (total_items w)
          v (pending w) (terminal_error w) (hstate w) (schedule w) (calls w)
          (size_writes w).

Definition set_pending (v : list Task) (w : World) : World :=
  mkWorld (batch_size w) (max_workers w) (retry_exceptions w)
          (exponential_backoff w) (counter w) (processed w) (total_items w)
          (finished w) v (terminal_error w) (hstate w) (schedule w)
          (calls w) (size_writes w).

Definition set_terminal_error (v : option Exn) (w : World) : World :=
  mkWorld (batch_size w) (max_workers w) (retry_exceptions w)
          (exponential_backoff w) (counter w) (processed w) (total_items w)
          (finished w) (pending w) v (hstate w) (schedule w) (calls w)
          (size_writes w).

Definition set_schedule (v : list Turn) (w : World) : World :=
  mkWorld (batch_size w) (max_workers w) (retry_exceptions w)
          (exponential_backoff w) (counter w) (processed w) (total_items w)
          (finished w) (pending w) (terminal_error w) (hstate w) v (calls w)
          (size_writes w).

Definition set_handler_view (h : H) (cs : list (list Item)) (w : World)
    : World :=
  mkWorld (batch_size w) (max_workers w) (retry_exceptions w)
          (exponential_backoff w) (counter w) (processed w) (total_items w)
          (finished w) (pending w) (terminal_error w) h (schedule w) cs
          (size_writes w).

(** One invocation [work_handler(batch)]: the handler's state advances and
    the invocation is logged. *)
Definition call_handler (work_handler : Handler) (batch : list Item)
    (w : World) : World * option Exn :=
  let hr := work_handler (hstate w) batch in
  (set_handler_view (fst hr) (calls w ++ [batch]) w, snd hr).

(** ** The progress tracker *)

(** Modelled from the spec: class [ProgressLogger] of
    [blockchainetl/progress_logger.py] is not among the source files.  The
    spec gives its contract: [start(total_items)], [track(count)], which
    accumulates the count of completed items, and [finish()]. *)
Definition progress_start (total : option Z) (w : World) : World :=
  set_total_items total w.

(** Modelled from the spec: [ProgressLogger.track(count)], absent from the
    source files, adds [count] to the number of completed items. *)
Definition progress_track (count : Z) (w : World) : World :=
  set_processed (processed w + count) w.

(** Modelled from the spec: [ProgressLogger.finish()], absent from the
    source files, closes the report. *)
Definition progress_finish (w : World) : World :=
  set_finished true w.

(** ** [_fail_safe_execute] *)

(** Lines 64-70: the batch size is reduced when the failed batch was a
    full one. *)
Definition reduce_batch_size (batch_len : Z) (w : World) : World :=
  let batch_size := batch_size w in
  if (batch_size =? batch_len) && (1 <? batch_size) then
    if exponential_backoff w then
      set_batch_size (PyNum.int_truediv_2 batch_size) w
    else set_batch_size (batch_size - 1) w
  else w.

(** Lines 72-73: [for item in batch: work_handler([item])].  The loop has
    no [try] of its own: the first exception ends it. *)
Fixpoint retry_items (work_handler : Handler) (items : list Item)
    (w : World) : World * option Exn :=
  match items with
  | [] => (w, None)
  | item :: rest =>
      match call_handler work_handler [item] w with
      | (w', None) => retry_items work_handler rest w'
      | (w', Some e) => (w', Some e)
      end
  end.

(** Lines 53-74, as one thread runs them with no other thread in between.
    The two [print] calls write to standard output only and are left out.
    An exception raised inside the [except] block, or one that the
    [except] clause does not match, leaves the function before line 74 is
    reached. *)
Definition _fail_safe_execute (work_handler : Handler)
    (batch : list Item) (w : World) : World * option Exn :=
  let w1 := set_counter (counter w + 1) w in
  match call_handler work_handler batch w1 with
  | (w2, None) =>
      let w3 := set_counter (counter w2 - 1) w2 in
      (progress_track (len batch) w3, None)
  | (w2, Some e) =>
      if retry_exceptions w2 e then
        let w3 := set_counter (counter w2 - 1) w2 in
        let w4 := reduce_batch_size (len batch) w3 in
        match retry_items work_handler batch w4 with
        | (w5, Some e') => (w5, Some e')
        | (w5, None) => (progress_track (len batch) w5, None)
        end
      else (w2, Some e)
  end.

(** ** Processing units as the workers run them *)

(** The pool runs [_fail_safe_execute] on several threads at once, so the
    statements of two units interleave.  [unit_step] below gives the same
    statements one stage at a time; run without interruption they are
    [_fail_safe_execute] ([run_unit_is_fail_safe_execute]). *)

(** Lines 66-70 with the value [local] that line 64 read.  Another thread
    may have assigned [self.batch_size] since. *)
Definition write_batch_size (local batch_len : Z) (w : World) : World :=
  if (local =? batch_len) && (1 <? local) then
    if exponential_backoff w then
      set_batch_size (PyNum.int_truediv_2 local) w
    else set_batch_size (local - 1) w
  else w.

Definition at_stage (s : Stage) (t : Task) : Task :=
  mkTask (task_handler t) (task_batch t) s.

(** One step of a processing unit: the statements of
    [_fail_safe_execute] from one stage to the next.  An invocation of the
    handler is one step, together with the update of [self.counter] next
    to it. *)
Definition unit_step (t : Task) (w : World) : Task * World :=
  match task_stage t with
  | AtCall =>
      let w1 := set_counter (counter w + 1) w in
      match call_handler (task_handler t) (task_batch t) w1 with
      | (w2, None) => (at_stage AtTrack t, set_counter (counter w2 - 1) w2)
      | (w2, Some e) =>
          if retry_exceptions w2 e then
            (at_stage AtRead t, set_counter (counter w2 - 1) w2)
          else (at_stage (Ended (Some e)) t, w2)
      end
  | AtRead => (at_stage (AtWrite (batch_size w)) t, w)
  | AtWrite local =>
      (at_stage (AtRetry (task_batch t)) t,
       write_batch_size local (len (task_batch t)) w)
  | AtRetry [] => (at_stage AtTrack t, w)
  | AtRetry (item :: rest) =>
      match call_handler (task_handler t) [item] w with
      | (w', None) => (at_stage (AtRetry rest) t, w')
      | (w', Some e) => (at_stage (Ended (Some e)) t, w')
      end
  | AtTrack =>
      (at_stage (Ended None) t, progress_track (len (task_batch t)) w)
  | Ended _ => (t, w)
  end.

(** A bound on the steps a unit still takes. *)
Definition steps_left (t : Task) : nat :=
  match task_stage t with
  | AtCall => length (task_batch t) + 5
  | AtRead => length (task_batch t) + 4
  | AtWrite _ => length (task_batch t) + 3
  | AtRetry rest => length rest + 2
  | AtTrack => 1
  | Ended _ => 0
  end.

(** A unit run from its first stage with no other thread in between. *)
Fixpoint run_unit (fuel : nat) (t : Task) (w : World) : Task * World :=
  match fuel with
  | O => (t, w)
  | S fuel' =>
      match task_stage t with
      | Ended _ => (t, w)
      | _ => run_unit fuel' (fst (unit_step t w)) (snd (unit_step t w))
      end
  end.

(** ** The worker pool *)

(** Modelled from the spec: [BoundedExecutor(1, max_workers)] of
    [blockchainetl/executors/bounded_executor.py] is absent from the source
    files.  It admits at most [bound + max_workers] tasks that are
    submitted and not yet completed. *)
Definition capacity (w : World) : nat := Z.to_nat (1 + max_workers w).

(** Modelled from the spec: the task wrapper of [FailSafeExecutor]
    ([blockchainetl/executors/fail_safe_executor.py], absent from the
    source files).  An exception that leaves a task is latched as the
    terminal error, the first one for good. *)
Definition latch (outcome : option Exn) (w : World) : World :=
  match outcome, terminal_error w with
  | Some e, None => set_terminal_error (Some e) w
  | _, _ => w
  end.

(** Modelled from the spec: the task at position [i] takes one step; when
    that step ends it, the task leaves the pool and its exception, if any,
    is latched.  The tasks take their steps in any order and complete in
    any order. *)
Definition step_at (i : nat) (w : World) : World :=
  match pending w !! i with
  | None => w
  | Some t =>
      let tw := unit_step t w in
      match task_stage (fst tw) with
      | Ended outcome =>
          latch outcome (set_pending (delete i (pending w)) (snd tw))
      | _ => set_pending (<[i := fst tw]> (pending w)) (snd tw)
      end
  end.

(** Modelled from the spec: the pool has [max_workers] threads, which take
    the tasks up in the order of submission: the tasks that run are the
    [max_workers] oldest ones in flight.  A choice that names no running
    task changes nothing. *)
Definition pool_step (i : nat) (w : World) : World :=
  if (i <? Z.to_nat (max_workers w))%nat then step_at i w else w.

Fixpoint pool_steps (choices : list nat) (w : World) : World :=
  match choices with
  | [] => w
  | i :: rest => pool_steps rest (pool_step i w)
  end.

(** The oldest task is run until it has left the pool: [n] is the number
    of tasks that remain then. *)
Fixpoint finish_head (fuel n : nat) (w : World) : World :=
  match fuel with
  | O => w
  | S fuel' =>
      if (length (pending w) <=? n)%nat then w
      else finish_head fuel' n (step_at O w)
  end.

Definition finish_oldest (w : World) : World :=
  match pending w with
  | [] => w
  | t :: rest => finish_head (S (steps_left t)) (length rest) w
  end.

Fixpoint finish_oldest_n (k : nat) (w : World) : World :=
  match k with
  | O => w
  | S k' => finish_oldest_n k' (finish_oldest w)
  end.

(** Modelled from the spec: a [submit] that finds the pool full blocks
    until a task has completed.  Whatever the scheduler has not settled by
    then is settled by completing the oldest tasks. *)
Definition make_room (w : World) : World :=
  finish_oldest_n (length (pending w) + 1 - capacity w) w.

(** Modelled from the spec: the pool's [shutdown] waits for every task in
    flight. *)
Definition drain (w : World) : World :=
  finish_oldest_n (length (pending w)) w.

(** Modelled from the spec: [FailSafeExecutor.submit], absent from the
    source files.  The workers run as the scheduler's turn says before the
    call looks at the latch; a latched error is re-raised without
    scheduling the task.  Otherwise the workers run on while the call waits
    for room, the task is queued at its first stage, and the workers run on
    before the caller reads the batch size again. *)
Definition submit (work_handler : Handler) (batch : list Item) (w : World)
    : World * option Exn :=
  let turn := hd (mkTurn [] [] []) (schedule w) in
  let w0 :=
    pool_steps (before_check turn) (set_schedule (tl (schedule w)) w) in
  match terminal_error w0 with
  | Some e => (w0, Some e)
  | None =>
      let w1 := make_room (pool_steps (while_blocked turn) w0) in
      let w2 :=
        set_pending (pending w1 ++ [mkTask work_handler batch AtCall]) w1 in
      (pool_steps (after_enqueue turn) w2, None)
  end.

(** Modelled from the spec: the generator [dynamic_batch_iterator(iterable,
    batch_size_getter)] of [blockchainetl/utils.py], absent from the source
    files, driven by a [for] loop with body [body].  The generator reads
    the target size before it forms a batch, fills the batch from the
    source in order, and yields it when the target is reached or the source
    is exhausted.  Generator and loop body alternate: the target of the
    next batch is read after the body has run on the previous one.  An
    exception of the body ends the loop.  [batch] is the batch being
    filled and [target] its target size. *)
Fixpoint dynamic_batch_iterator_from (iterable : list Item)
    (batch_size_getter : World -> Z)
    (body : list Item -> World -> World * option Exn)
    (batch : list Item) (target : Z) (w : World) : World * option Exn :=
  match iterable with
  | [] =>
      match batch with
      | [] => (w, None)
      | _ :: _ => body batch w
      end
  | item :: rest =>
      let batch' := batch ++ [item] in
      if target <=? len batch' then
        match body batch' w with
        | (w', Some e) => (w', Some e)
        | (w', None) =>
            dynamic_batch_iterator_from rest batch_size_getter body []
              (batch_size_getter w') w'
        end
      else
        dynamic_batch_iterator_from rest batch_size_getter body batch'
          target w
  end.

(** Modelled from the spec: [for batch in dynamic_batch_iterator(iterable,
    batch_size_getter): body(batch)], from the first batch on. *)
Definition dynamic_batch_iterator (iterable : list Item)
    (batch_size_getter : World -> Z)
    (body : list Item -> World -> World * option Exn) (w : World)
    : World * option Exn :=
  dynamic_batch_iterator_from iterable batch_size_getter body []
    (batch_size_getter w) w.

(** ** [BatchWorkExecutor] *)

(** Lines 37-46.  [h0] is the state the handler starts from and [sched]
    the turns the scheduler will take. *)
Definition __init__ (starting_batch_size max_workers : Z)
    (retry_exceptions : Exn -> bool) (exponential_backoff : bool)
    (h0 : H) (sched : list Turn) : World :=
  mkWorld starting_batch_size max_workers retry_exceptions
          exponential_backoff 0 0 None false [] None h0 sched [] [].

(** Lines 48-51.  The size getter [lambda: self.batch_size] is the field
    [batch_size]. *)
Definition execute (work_iterable : list Item) (work_handler : Handler)
    (total_items : option Z) (w : World) : World * option Exn :=
  let w1 := progress_start total_items w in
  dynamic_batch_iterator work_iterable batch_size (submit work_handler) w1.

(** Lines 76-78.  Modelled from the spec: [FailSafeExecutor.shutdown],
    absent from the source files, lets the workers run, waits for every
    task in flight and then raises the latched error, if there is one. *)
Definition shutdown (w : World) : World * option Exn :=
  let turn := hd (mkTurn [] [] []) (schedule w) in
  let w1 :=
    drain (pool_steps (before_check turn)
             (set_schedule (tl (schedule w)) w)) in
  match terminal_error w1 with
  | Some e => (w1, Some e)
  | None => (progress_finish w1, None)
  end.

(** ** Notions used to state the properties *)

(** [[item]] for an item. *)
Definition singleton (item : Item) : list Item := [item].

(** The per-item pass seen from the handler alone: starting in state [h]
    the handler is given the items one at a time until it raises.  The
    result is the handler's state, the number of invocations made and the
    exception, if one was raised. *)
Fixpoint singleton_pass (work_handler : Handler) (items : list Item)
    (h : H) : H * nat * option Exn :=
  match items with
  | [] => (h, O, None)
  | item :: rest =>
      match work_handler h [item] with
      | (h', Some e) => (h', 1%nat, Some e)
      | (h', None) =>
          match singleton_pass work_handler rest h' with
          | (h'', n, r) => (h'', S n, r)
          end
      end
  end.

(** The batches a source yields when the target size stays [B]: [batch]
    is the batch being filled. *)
Fixpoint fixed_size_batches (B : Z) (batch items : list Item)
    : list (list Item) :=
  match items with
  | [] =>
      match batch with
      | [] => []
      | _ :: _ => [batch]
      end
  | item :: rest =>
      let batch' := batch ++ [item] in
      if B <=? len batch' then batch' :: fixed_size_batches B [] rest
      else fixed_size_batches B batch' rest
  end.

(** A handler that never raises. *)
Definition always_succeeds (work_handler : Handler) : Prop :=
  forall h batch, snd (work_handler h batch) = None.

(** The values [self.batch_size] has held, latest first, for an executor
    constructed with [starting_batch_size = B]. *)
Definition size_history (B : Z) (w : World) : list Z :=
  size_writes w ++ [B].

(** The log is complete (the field holds the latest value written), each
    value is smaller than all the values held before it, and none is
    below 1. *)
Definition size_history_ok (B : Z) (w : World) : Prop :=
  hd B (size_writes w) = batch_size w /\
  StronglySorted Z.lt (size_history B w) /\
  Forall (fun v => 1 <= v) (size_history B w).

(** The number of items in the tasks in flight. *)
Definition backlog (w : World) : Z :=
  len (concat (map task_batch (pending w))).

Definition at_call (t : Task) : bool :=
  match task_stage t with
  | AtCall => true
  | _ => false
  end.

Definition has_ended (t : Task) : bool :=
  match task_stage t with
  | Ended _ => true
  | _ => false
  end.

(** The batches of the tasks in flight on which the handler has not been
    invoked yet. *)
Definition awaiting_call (w : World) : list (list Item) :=
  map task_batch (List.filter at_call (pending w)).

(** What the log of invocations says the handler's state is: the handler
    applied to the logged batches in turn, from [h0]. *)
Definition replay (work_handler : Handler) (h0 : H)
    (log : list (list Item)) : H :=
  fold_left (fun h batch => fst (work_handler h batch)) log h0.

(** The state of a run with target size [B] and handler [work_handler]
    in which no exception has been raised, after the batches [bs] have been
    submitted: nothing is latched, the size is still [B], every task in
    flight is before its invocation or before line 74, the handler has been
    invoked on each submitted batch once except for those that await it,
    the progress tracker has counted the items of the tasks that have
    left the pool, and the handler's state is the one the log says. *)
Definition undisturbed (B : Z) (work_handler : Handler) (h0 : H)
    (bs : list (list Item)) (w : World) : Prop :=
  terminal_error w = None /\
  batch_size w = B /\
  Forall (fun t => task_handler t = work_handler /\
                   (task_stage t = AtCall \/ task_stage t = AtTrack))
    (pending w) /\
  Permutation (calls w ++ awaiting_call w) bs /\
  processed w + backlog w = len (concat bs) /\
  hstate w = replay work_handler h0 (calls w).

(** A handler whose exceptions are all matched by [retry] and which never
    raises on a singleton. *)
Definition recovers_singly (retry : Exn -> bool) (work_handler : Handler)
    : Prop :=
  (forall h batch e, snd (work_handler h batch) = Some e -> retry e = true) /\
  (forall h item, snd (work_handler h [item]) = None).

(** The state of a run all of whose handlers recover, when the tasks
    submitted hold [M] items: nothing is latched, no task in flight has
    ended, and every item is either counted or in flight. *)
Definition recovering (retry : Exn -> bool) (M : Z) (w : World) : Prop :=
  terminal_error w = None /\
  retry_exceptions w = retry /\
  Forall (fun t => recovers_singly retry (task_handler t) /\
                   has_ended t = false) (pending w) /\
  processed w + backlog w = M.

(** The progress tracker is at [p0] or further, and it has not counted
    more than the [M] items submitted allow. *)
Definition accounted (p0 M : Z) (w : World) : Prop :=
  p0 <= processed w /\ processed w + backlog w <= M.

(** A handler that raises [e] on every batch. *)
Definition always_raises (e : Exn) (work_handler : Handler) : Prop :=
  forall h batch, snd (work_handler h batch) = Some e.

(** The state of a run whose handler raises [e], an exception outside
    [retry_exceptions], on every batch: nothing has been counted, the
    report is open, no other exception is latched, and the tasks in flight
    are before their invocation, with handlers that raise [e] too. *)
Definition doomed (e : Exn) (w : World) : Prop :=
  retry_exceptions w e = false /\
  processed w = 0 /\
  finished w = false /\
  (terminal_error w = None \/ terminal_error w = Some e) /\
  Forall (fun t => always_raises e (task_handler t) /\
                   task_stage t = AtCall) (pending w).

(** The exception [e] is latched or a task is in flight. *)
Definition failure_due (e : Exn) (w : World) : Prop :=
  terminal_error w = Some e \/ pending w <> [].

(** The batch size is between 1 and the starting size [B], every value
    written to it is at least 1 and below [B], and so is every value a
    unit has read and not yet used. *)
Definition size_in_range (B : Z) (w : World) : Prop :=
  1 <= batch_size w <= B /\
  Forall (fun v => 1 <= v < B) (size_writes w) /\
  Forall (fun t => forall local, task_stage t = AtWrite local -> local <= B)
    (pending w).

(** With a single worker only the oldest task runs: the others are before
    their invocation, and a value the oldest one has read is still the
    value of the field. *)
Definition one_at_a_time (w : World) : Prop :=
  max_workers w = 1 /\
  Forall (fun t => task_stage t = AtCall) (tl (pending w)) /\
  (forall t local,
     hd_error (pending w) = Some t -> task_stage t = AtWrite local ->
     local = batch_size w).

End WithTypes.

(** Line 32, [RETRY_EXCEPTIONS]: the exception classes the module names,
    with two classes outside the tuple ([ValueError] and [KeyError] derive
    from none of the listed classes).  [except] matches an exception whose
    class is in the tuple. *)
Inductive PyExn : Type :=
| RemoteDisconnected
| ConnectionResetError
| RequestsConnectionError
| ConnectionError
| HTTPError
| RequestsTimeout
| TooManyRedirects
| OSError
| JSONDecodeError
| ValueError
| KeyError.

Definition RETRY_EXCEPTIONS (e : PyExn) : bool :=
  match e with
  | ValueError | KeyError => false
  | _ => true
  end.

(** ** Handlers and executors used as concrete inputs *)

(** Handlers over integer items whose state counts the invocations. *)
Definition succeed : @Handler Z PyExn nat :=
  fun h _ => (S h, None).

(** Raises [ValueError] on every batch. *)
Definition fatal : @Handler Z PyExn nat :=
  fun h _ => (S h, Some ValueError).

(** Raises [ConnectionError] on every batch that is not a singleton, and
    [e] on the singleton of [bad]. *)
Definition poison (bad : Z) (e : PyExn) : @Handler Z PyExn nat :=
  fun h batch =>
    match batch with
    | [item] => (S h, if item =? bad then Some e else None)
    | _ => (S h, Some ConnectionError)
    end.

(** Raises [ConnectionError] on its first, third, fifth ... invocation. *)
Definition flaky : @Handler Z PyExn nat :=
  fun h _ => (S h, if Nat.even h then Some ConnectionError else None).

(** Raises [ConnectionError] on every batch that is not a singleton. *)
Definition singles_only : @Handler Z PyExn nat :=
  fun h batch =>
    match batch with
    | [_] => (S h, None)
    | _ => (S h, Some ConnectionError)
    end.

(** A schedule for two workers that completes the second batch before
    the first: both tasks are in flight when the second [submit] returns,
    and the younger one takes its two steps first. *)
Definition younger_first : list Turn :=
  [ mkTurn [] [] [];
    mkTurn [] [] [1; 1; 0; 0]%nat;
    mkTurn [] [] [0]%nat ].

(** A schedule for two workers in which the first unit reads the batch
    size, then waits while the second unit and a third one each read and
    write it, and writes last. *)
Definition stale_write : list Turn :=
  [ mkTurn [] [] [];
    mkTurn [] [] [0; 0; 1; 1; 1; 1; 1; 1; 1; 1; 1]%nat;
    mkTurn [] [] [1; 1; 1; 0]%nat ].

(** [BatchWorkExecutor(B, 2)] and [BatchWorkExecutor(B, 2,
    exponential_backoff=False)], each with a schedule for the pool. *)
Definition exponential_executor (B : Z) : @World Z PyExn nat :=
  __init__ B 2 RETRY_EXCEPTIONS true O younger_first.

Definition linear_executor (B : Z) : @World Z PyExn nat :=
  __init__ B 2 RETRY_EXCEPTIONS false O younger_first.

(** [BatchWorkExecutor(B, 2)] with the schedule [stale_write]. *)
Definition racing_executor (B : Z) : @World Z PyExn nat :=
  __init__ B 2 RETRY_EXCEPTIONS true O stale_write.

(** [BatchWorkExecutor(B, 1)] and its linear variant: a single worker. *)
Definition single_worker_executor (B : Z) (exp : bool)
    : @World Z PyExn nat :=
  __init__ B 1 RETRY_EXCEPTIONS exp O younger_first.


End Executor.

(* ===================================================================== *)
(** * eosetl/mappers/action_mapper.py                                     *)
(* ===================================================================== *)

Module ActionMapper.

Section WithValues.

(** The values stored in the dictionaries are opaque, except that Python
    strings are among them. *)
Context {Value : Type}.
Variable str : string -> Value.

Local Open Scope string_scope.

(** The dictionaries live in the heap: [heap obj] is what the dictionary
    object with identity [obj] holds.  The arguments of [action_to_dict]
    are references to such objects, and the same object may be passed for
    both. *)
Definition Heap : Type := nat -> gmap string Value.

(** How a call ends: it returns the new dictionary or raises
    [KeyError(key)]. *)
Inductive outcome : Type :=
| Return (result : gmap string Value)
| KeyError (key : string).

(** [d[key]] *)
Definition getitem (d : gmap string Value) (key : string)
    : string + Value :=
  match d !! key with
  | Some v => inr v
  | None => inl key
  end.

Local Notation "'let?' x ':=' e 'in' k" :=
  (match e with inl key => inl key | inr x => k end)
  (at level 10, x name, e at level 100, k at level 200).

(** Lines 30-39: the dictionary display evaluates its values top to
    bottom; the first missing key raises.  [action] and
    [transaction_dict] are what the two argument objects hold when the
    display is evaluated. *)
Definition build_result (action transaction_dict : gmap string Value)
    : string + gmap string Value :=
  let? transaction_hash := getitem transaction_dict "trx.hash" in
  let? block_hash := getitem transaction_dict "block_hash" in
  let? account := getitem action "account" in
  let? name := getitem action "name" in
  let? authorization := getitem action "authorization" in
  let? data := getitem action "data" in
  let hex_data :=
    match action !! "hex_data" with
    | Some v => v
    | None => str "NULL"
    end in
  inr (<["hex_data" := hex_data]>
       (<["data" := data]>
        (<["authorization" := authorization]>
         (<["name" := name]>
          (<["account" := account]>
           (<["block_hash" := block_hash]>
            (<["transaction_hash" := transaction_hash]>
             (<["type" := str "action"]> ∅)))))))).

(** [obj.pop(key, None)]: the object [obj] loses [key], if it has it;
    every reference to [obj] sees the change. *)
Definition pop (key : string) (obj : nat) (heap : Heap) : Heap :=
  <[obj := delete key (heap obj)]> heap.

(** Lines 41-45: [action.pop(key, None)] five times. *)
Definition pop_fields (action : nat) (heap : Heap) : Heap :=
  pop "hex_data" action
    (pop "data" action
      (pop "authorization" action
        (pop "name" action
          (pop "account" action heap)))).

(** What the caller can observe after the call: the heap, what line 48
    printed (the leftover action, if it is not empty), and how the call
    ended. *)
Record effect : Type := mkEffect {
  heap_after : Heap;
  printed : option (gmap string Value);
  ended : outcome
}.

(** Lines 26-50.  [action] and [transaction_dict] are references. *)
Definition action_to_dict (heap : Heap) (action transaction_dict : nat)
    : effect :=
  match build_result (heap action) (heap transaction_dict) with
  | inl key => mkEffect heap None (KeyError key)
  | inr result =>
      let heap' := pop_fields action heap in
      let out :=
        if decide (dom (heap' action) = ∅) then None
        else Some (heap' action) in
      mkEffect heap' out (Return result)
  end.

(** ** Notions used to state the properties *)

(** The keys line 32-37 index with. *)
Definition required_present (action transaction_dict : gmap string Value)
    : Prop :=
  is_Some (transaction_dict !! "trx.hash") /\
  is_Some (transaction_dict !! "block_hash") /\
  is_Some (action !! "account") /\
  is_Some (action !! "name") /\
  is_Some (action !! "authorization") /\
  is_Some (action !! "data").

(** The keys lines 41-45 pop. *)
Definition popped_keys : list string :=
  ["account"; "name"; "authorization"; "data"; "hex_data"].

(** The keys of the returned dictionary. *)
Definition result_keys : gset string :=
  {[ "type"; "transaction_hash"; "block_hash"; "account"; "name";
     "authorization"; "data"; "hex_data" ]}.

(** The subscriptions of lines 32-37 in the order they are evaluated:
    the key and what the dictionary holds for it. *)
Definition subscriptions (action transaction_dict : gmap string Value)
    : list (string * option Value) :=
  [ ("trx.hash", transaction_dict !! "trx.hash");
    ("block_hash", transaction_dict !! "block_hash");
    ("account", action !! "account");
    ("name", action !! "name");
    ("authorization", action !! "authorization");
    ("data", action !! "data") ].

(** The key of the first subscription that finds nothing. *)
Fixpoint first_missing (subs : list (string * option Value))
    : option string :=
  match subs with
  | [] => None
  | (key, None) :: _ => Some key
  | (_, Some _) :: rest => first_missing rest
  end.

End WithValues.

(** ** Dictionaries used as concrete inputs *)

Local Open Scope string_scope.

(** An action with a leftover key and without ['hex_data'], and the
    dictionary of its transaction; values are strings. *)
Definition transfer_action : gmap string string :=
  <["account" := "eosio.token"]>
  (<["name" := "transfer"]>
   (<["authorization" := "alice@active"]>
    (<["data" := "1.0000 EOS"]>
     (<["receipt" := "r1"]> ∅)))).

Definition transfer_transaction : gmap string string :=
  <["trx.hash" := "abcd"]> (<["block_hash" := "0123"]> ∅).

(** The same action without its ['name']. *)
Definition nameless_action : gmap string string :=
  delete "name" transfer_action.

(** What [action_to_dict] returns for [transfer_action]. *)
Definition transfer_result : gmap string string :=
  <["type" := "action"]>
  (<["transaction_hash" := "abcd"]>
   (<["block_hash" := "0123"]>
    (<["account" := "eosio.token"]>
     (<["name" := "transfer"]>
      (<["authorization" := "alice@active"]>
       (<["data" := "1.0000 EOS"]>
        (<["hex_data" := "NULL"]> ∅))))))).

(** A heap with the action as object 0 and its transaction as object 1;
    the other objects are empty dictionaries. *)
Definition heap_of (action transaction_dict : gmap string string)
    : @Heap string :=
  <[0%nat := action]> (<[1%nat := transaction_dict]> (fun _ => ∅)).

Definition transfer_heap : @Heap string :=
  heap_of transfer_action transfer_transaction.

(** One dictionary that carries the keys of the action and those of the
    transaction, as object 0: it can be passed for both arguments. *)
Definition flat_record : gmap string string :=
  <["trx.hash" := "abcd"]> (<["block_hash" := "0123"]> transfer_action).

Definition flat_heap : @Heap string :=
  <[0%nat := flat_record]> (fun _ => ∅).

End ActionMapper.

(* ===================================================================== *)
(** * Properties                                                          *)
(* ===================================================================== *)

Module PyNumFacts.
Import PyNum.

Lemma round_to_double_small (n : Z) :
  0 <= n < 2 ^ 53 -> round_to_double n = n.
Proof.
  intros Hn. unfold round_to_double, mantissa_bits.
  destruct (Z.leb_spec (Z.log2 n + 1) 53) as [_ | Hbig]; [reflexivity |].
  exfalso.
  destruct (Z.eq_dec n 0) as [-> | Hnz]; [cbn in Hbig; lia |].
  assert (Hlt : Z.log2 n < 53) by (apply Z.log2_lt_pow2; lia).
  lia.
Qed.

Lemma round_to_double_bounds (n : Z) :
  1 < n -> 2 <= round_to_double n < 2 * n.
Proof.
  intros Hn. unfold round_to_double, mantissa_bits.
  destruct (Z.leb_spec (Z.log2 n + 1) 53) as [_ | Hbig]; [lia |].
  set (sh := Z.log2 n + 1 - 53).
  assert (Hsh : 0 < sh) by (unfold sh; lia).
  rewrite Z.shiftl_mul_pow2, Z.shiftr_div_pow2 by lia.
  pose proof (Z.log2_spec n ltac:(lia)) as [Hlo _].
  replace (Z.log2 n) with (sh + 52) in Hlo by (unfold sh; lia).
  rewrite Z.pow_add_r in Hlo by lia.
  assert (HP : 0 < 2 ^ sh) by (apply Z.pow_pos_nonneg; lia).
  set (P := 2 ^ sh) in *.
  assert (Hq : 2 ^ 52 <= n / P) by (apply Z.div_le_lower_bound; lia).
  pose proof (Z.mul_div_le n P HP) as Hle.
  assert (H52 : 2 ^ 52 = 4503599627370496) by reflexivity.
  rewrite H52 in *.
  destruct ((_ <? _) || _); nia.
Qed.

Lemma int_truediv_2_exact (n : Z) :
  0 <= n < 2 ^ 53 -> int_truediv_2 n = n / 2.
Proof.
  intros Hn. unfold int_truediv_2.
  rewrite Z.abs_eq by lia. rewrite round_to_double_small by lia.
  destruct (Z.eq_dec n 0) as [-> | Hnz]; [reflexivity |].
  rewrite Z.sgn_pos by lia. lia.
Qed.

Lemma int_truediv_2_bounds (n : Z) :
  1 < n -> 1 <= int_truediv_2 n < n.
Proof.
  intros Hn. unfold int_truediv_2.
  rewrite Z.abs_eq, Z.sgn_pos by lia.
  pose proof (round_to_double_bounds n Hn) as [Hlo Hhi].
  split.
  - rewrite Z.mul_1_l. apply Z.div_le_lower_bound; lia.
  - rewrite Z.mul_1_l. apply Z.div_lt_upper_bound; lia.
Qed.

Lemma int_truediv_2_finite (n : Z) :
  0 <= n <= sys_maxsize -> round_to_double (Z.abs n) / 2 < double_overflow.
Proof.
  intros [Hlo Hhi]. rewrite Z.abs_eq by lia.
  assert (Hmax : sys_maxsize < 2 ^ 1000) by (vm_compute; reflexivity).
  assert (Hov : 2 ^ 1000 < double_overflow) by (vm_compute; reflexivity).
  destruct (Z.le_gt_cases n 1) as [Hsmall | Hbig].
  - rewrite round_to_double_small.
    + apply Z.div_lt_upper_bound; lia.
    + change (2 ^ 53) with 9007199254740992. lia.
  - pose proof (round_to_double_bounds n Hbig) as [_ Hr].
    apply Z.div_lt_upper_bound; lia.
Qed.
End PyNumFacts.

Module ExecutorFacts.
Import Executor.

Section WithTypes.

Context {Item Exn H : Type}.
Implicit Types (w : @World Item Exn H) (batch items : list Item).
Implicit Types (work_handler : @Handler Item Exn H).

(** ** The handler's view *)

Lemma set_handler_view_id w : set_handler_view (hstate w) (calls w) w = w.
Proof. destruct w; reflexivity. Qed.

Lemma singleton_pass_count work_handler items h :
  (snd (fst (singleton_pass work_handler items h)) <= length items)%nat.
Proof.
  revert h. induction items as [| item rest IH]; intros h; simpl; [lia |].
  destruct (work_handler h [item]) as [h' [e |]]; simpl; [lia |].
  specialize (IH h').
  destruct (singleton_pass work_handler rest h') as [[h'' n] r]; simpl in *.
  lia.
Qed.

Lemma singleton_pass_complete work_handler items h :
  snd (singleton_pass work_handler items h) = None ->
  snd (fst (singleton_pass work_handler items h)) = length items.
Proof.
  revert h. induction items as [| item rest IH]; intros h; simpl; [easy |].
  destruct (work_handler h [item]) as [h' [e |]]; simpl; [discriminate |].
  specialize (IH h').
  destruct (singleton_pass work_handler rest h') as [[h'' n] r]; simpl in *.
  intros Hr. rewrite (IH Hr). reflexivity.
Qed.

(** The pass stops at the first item on which the handler raises. *)
Lemma singleton_pass_stops work_handler pre item post h h2 h3 e :
  singleton_pass work_handler pre h = (h2, length pre, None) ->
  work_handler h2 [item] = (h3, Some e) ->
  singleton_pass work_handler (pre ++ item :: post) h
  = (h3, S (length pre), Some e).
Proof.
  revert h. induction pre as [| p pre IH]; intros h Hpre Hraise; simpl in *.
  - injection Hpre as ->. rewrite Hraise. reflexivity.
  - destruct (work_handler h [p]) as [h' [e' |]]; [discriminate |].
    destruct (singleton_pass work_handler pre h') as [[h'' n] r] eqn:Hp.
    injection Hpre as -> Hn ->. subst n.
    rewrite (IH h' Hp Hraise). reflexivity.
Qed.

(** Lines 72-73 on the world: what the loop does to the handler's state
    and to the log is what [singleton_pass] computes; nothing else
    changes. *)
Lemma retry_items_view work_handler items w :
  retry_items work_handler items w
  = (set_handler_view
       (fst (fst (singleton_pass work_handler items (hstate w))))
       (calls w ++
          map singleton
            (firstn (snd (fst (singleton_pass work_handler items (hstate w))))
               items))
       w,
     snd (singleton_pass work_handler items (hstate w))).
Proof.
  revert w. induction items as [| item rest IH]; intros w; simpl.
  - rewrite app_nil_r, set_handler_view_id. reflexivity.
  - unfold call_handler.
    destruct (work_handler (hstate w) [item]) as [h' [e |]] eqn:Hh; simpl.
    + reflexivity.
    + rewrite IH. simpl.
      destruct (singleton_pass work_handler rest h') as [[h'' n] r]; simpl.
      rewrite <- app_assoc. reflexivity.
Qed.

(** ** [reduce_batch_size] *)

Lemma reduce_batch_size_frame batch_len w :
  let w' := reduce_batch_size batch_len w in
  hstate w' = hstate w /\ calls w' = calls w /\
  processed w' = processed w /\ counter w' = counter w /\
  pending w' = pending w /\ terminal_error w' = terminal_error w /\
  retry_exceptions w' = retry_exceptions w /\
  exponential_backoff w' = exponential_backoff w /\
  max_workers w' = max_workers w.
Proof.
  unfold reduce_batch_size.
  destruct (_ && _); [destruct (exponential_backoff w) eqn:He |]; simpl;
    rewrite ?He; repeat split; reflexivity.
Qed.

(** When the guard of line 66 holds, one value is written and it is
    smaller than the old one but not below 1; otherwise nothing is
    written. *)
Lemma reduce_batch_size_write batch_len w :
  let w' := reduce_batch_size batch_len w in
  (batch_size w = batch_len /\ 1 < batch_size w /\
   size_writes w' = batch_size w' :: size_writes w /\
   1 <= batch_size w' < batch_size w)
  \/
  (~ (batch_size w = batch_len /\ 1 < batch_size w) /\ w' = w).
Proof.
  unfold reduce_batch_size.
  destruct (Z.eqb_spec (batch_size w) batch_len) as [Heq | Hne]; simpl.
  2: { right. split; [tauto | reflexivity]. }
  destruct (Z.ltb_spec 1 (batch_size w)) as [Hgt | Hle]; simpl.
  2: { right. split; [lia | reflexivity]. }
  left. destruct (exponential_backoff w) eqn:He; simpl.
  - pose proof (PyNumFacts.int_truediv_2_bounds _ Hgt). tauto.
  - repeat split; trivial; lia.
Qed.

(** ** [_fail_safe_execute] *)

(** The three ways through the function. *)
Lemma fail_safe_execute_success work_handler batch w h1 :
  work_handler (hstate w) batch = (h1, None) ->
  _fail_safe_execute work_handler batch w
  = (progress_track (len batch)
       (set_counter (counter w + 1 - 1)
          (set_handler_view h1 (calls w ++ [batch])
             (set_counter (counter w + 1) w))),
     None).
Proof.
  intros Hh. unfold _fail_safe_execute, call_handler. simpl.
  rewrite Hh. reflexivity.
Qed.

Lemma fail_safe_execute_fatal work_handler batch w h1 e :
  work_handler (hstate w) batch = (h1, Some e) ->
  retry_exceptions w e = false ->
  _fail_safe_execute work_handler batch w
  = (set_handler_view h1 (calls w ++ [batch])
       (set_counter (counter w + 1) w),
     Some e).
Proof.
  intros Hh Hre. unfold _fail_safe_execute, call_handler. simpl.
  rewrite Hh. simpl. rewrite Hre. reflexivity.
Qed.

(** The world in which the per-item pass starts. *)
Lemma fail_safe_execute_transient work_handler batch w h1 e :
  work_handler (hstate w) batch = (h1, Some e) ->
  retry_exceptions w e = true ->
  _fail_safe_execute work_handler batch w
  = let w4 :=
      reduce_batch_size (len batch)
        (set_counter (counter w + 1 - 1)
           (set_handler_view h1 (calls w ++ [batch])
              (set_counter (counter w + 1) w))) in
    match retry_items work_handler batch w4 with
    | (w5, Some e') => (w5, Some e')
    | (w5, None) => (progress_track (len batch) w5, None)
    end.
Proof.
  intros Hh Hre. unfold _fail_safe_execute, call_handler. simpl.
  rewrite Hh. simpl. rewrite Hre. reflexivity.
Qed.

(** After a transient failure: the outcome and the log are those of the
    per-item pass, the size is written by line 66-70 only, and line 74 is
    reached only when the pass raised nothing. *)
Lemma fail_safe_execute_retry work_handler batch w h1 e :
  work_handler (hstate w) batch = (h1, Some e) ->
  retry_exceptions w e = true ->
  let r := _fail_safe_execute work_handler batch w in
  let p := singleton_pass work_handler batch h1 in
  snd r = snd p /\
  hstate (fst r) = fst (fst p) /\
  calls (fst r)
  = calls w ++ [batch] ++ map singleton (firstn (snd (fst p)) batch) /\
  batch_size (fst r) = batch_size (reduce_batch_size (len batch) w) /\
  size_writes (fst r) = size_writes (reduce_batch_size (len batch) w) /\
  processed (fst r)
  = match snd p with
    | None => processed w + len batch
    | Some _ => processed w
    end.
Proof.
  intros Hh Hre r p. subst r.
  rewrite (fail_safe_execute_transient _ _ _ _ _ Hh Hre). cbv zeta.
  rewrite retry_items_view.
  match goal with
  | |- context [reduce_batch_size ?n ?w0] =>
      pose proof (reduce_batch_size_frame n w0) as Hf;
      set (w4 := reduce_batch_size n w0) in *
  end.
  cbv zeta in Hf.
  destruct Hf as (Hhs & Hcs & Hpr & _). simpl in Hhs, Hcs, Hpr.
  rewrite Hhs, Hcs. fold p.
  assert (Hbs : batch_size w4 = batch_size (reduce_batch_size (len batch) w)
                /\ size_writes w4
                   = size_writes (reduce_batch_size (len batch) w)).
  { subst w4. unfold reduce_batch_size. simpl.
    destruct (_ && _); [destruct (exponential_backoff w) |]; simpl;
      split; reflexivity. }
  destruct Hbs as [Hbs Hsw].
  destruct (snd p) as [e' |] eqn:Hp; simpl;
    rewrite <- ?app_assoc; simpl; rewrite ?Hpr; repeat split; trivial.
Qed.

(** C5: an exception outside [retry_exceptions] leaves the processing unit
    as it is: the batch size is not written, the handler is not invoked
    again, and the progress tracker is not advanced. *)
Theorem unrecognized_error_propagates work_handler batch w h1 e :
  work_handler (hstate w) batch = (h1, Some e) ->
  retry_exceptions w e = false ->
  let r := _fail_safe_execute work_handler batch w in
  snd r = Some e /\
  batch_size (fst r) = batch_size w /\
  size_writes (fst r) = size_writes w /\
  calls (fst r) = calls w ++ [batch] /\
  processed (fst r) = processed w.
Proof.
  intros Hh Hre r. subst r.
  rewrite (fail_safe_execute_fatal _ _ _ _ _ Hh Hre). simpl.
  repeat split; reflexivity.
Qed.

(** C2 as amended: when the first invocation raises a recognized error
    and the per-item pass raises on some item, that exception leaves the
    processing unit and the progress tracker is not advanced; it is
    advanced, by the length of the batch, only when the pass raises
    nothing. *)
Theorem progress_tracked_only_after_settled_pass work_handler batch w h1 e :
  work_handler (hstate w) batch = (h1, Some e) ->
  retry_exceptions w e = true ->
  let r := _fail_safe_execute work_handler batch w in
  let p := singleton_pass work_handler batch h1 in
  (forall e', snd p = Some e' ->
     snd r = Some e' /\ processed (fst r) = processed w) /\
  (snd p = None ->
     snd r = None /\ processed (fst r) = processed w + len batch).
Proof.
  intros Hh Hre r p.
  destruct (fail_safe_execute_retry _ _ _ _ _ Hh Hre)
    as (Hout & _ & _ & _ & _ & Hpr).
  fold r p in Hout, Hpr.
  split.
  - intros e' Hp. rewrite Hp in *. split; assumption.
  - intros Hp. rewrite Hp in *. split; assumption.
Qed.

(** C4: after a recognized error on the batch the handler is invoked on
    the singleton of each item, in batch order.  An exception from one of
    these invocations leaves the processing unit whether or not it is a
    recognized one: the batch size is not written again, the handler is
    not invoked again and the progress tracker is not advanced. *)
Theorem per_item_retry_is_unprotected work_handler batch w h1 e :
  work_handler (hstate w) batch = (h1, Some e) ->
  retry_exceptions w e = true ->
  let r := _fail_safe_execute work_handler batch w in
  (snd (singleton_pass work_handler batch h1) = None ->
     snd r = None /\
     calls (fst r) = calls w ++ [batch] ++ map singleton batch) /\
  (forall pre item post h2 h3 e',
     batch = pre ++ item :: post ->
     singleton_pass work_handler pre h1 = (h2, length pre, None) ->
     work_handler h2 [item] = (h3, Some e') ->
     snd r = Some e' /\
     calls (fst r)
     = calls w ++ [batch] ++ map singleton pre ++ [[item]] /\
     batch_size (fst r) = batch_size (reduce_batch_size (len batch) w) /\
     size_writes (fst r) = size_writes (reduce_batch_size (len batch) w) /\
     processed (fst r) = processed w).
Proof.
  intros Hh Hre r.
  destruct (fail_safe_execute_retry _ _ _ _ _ Hh Hre)
    as (Hout & _ & Hcalls & Hbs & Hsw & Hpr).
  fold r in Hout, Hcalls, Hbs, Hsw, Hpr.
  split.
  - intros Hp. rewrite Hout, Hcalls.
    rewrite (singleton_pass_complete _ _ _ Hp), firstn_all.
    split; [assumption | reflexivity].
  - intros pre item post h2 h3 e' -> Hpre Hraise.
    rewrite (singleton_pass_stops _ _ _ post _ _ _ _ Hpre Hraise)
      in Hout, Hcalls, Hpr.
    simpl fst in Hcalls. simpl snd in Hout, Hcalls, Hpr.
    repeat split; try assumption.
    rewrite Hcalls.
    replace (S (length pre)) with (length (pre ++ [item]))
      by (rewrite length_app; simpl; lia).
    replace (pre ++ item :: post) with ((pre ++ [item]) ++ post) at 2
      by (rewrite <- app_assoc; reflexivity).
    rewrite firstn_app, firstn_all, Nat.sub_diag, firstn_O, app_nil_r.
    rewrite map_app. reflexivity.
Qed.

(** C8: in the per-item pass after a recognized error, when the handler
    raises on the item at position [length pre], the items after that
    position are not handed to the handler: the pass made exactly
    [length pre + 1] invocations and the handler's state is the one the
    raising invocation left. *)
Theorem per_item_pass_stops_at_first_failure
    work_handler batch w h1 e pre item post h2 h3 e' :
  work_handler (hstate w) batch = (h1, Some e) ->
  retry_exceptions w e = true ->
  batch = pre ++ item :: post ->
  singleton_pass work_handler pre h1 = (h2, length pre, None) ->
  work_handler h2 [item] = (h3, Some e') ->
  let r := _fail_safe_execute work_handler batch w in
  calls (fst r)
  = calls w ++ [batch] ++ map singleton (firstn (S (length pre)) batch) /\
  length (calls (fst r)) = (length (calls w) + 1 + (length pre + 1))%nat /\
  hstate (fst r) = h3.
Proof.
  intros Hh Hre -> Hpre Hraise r.
  destruct (fail_safe_execute_retry _ _ _ _ _ Hh Hre)
    as (_ & Hhs & Hcalls & _).
  fold r in Hhs, Hcalls.
  rewrite (singleton_pass_stops _ _ _ post _ _ _ _ Hpre Hraise)
    in Hhs, Hcalls.
  simpl fst in Hhs, Hcalls. simpl snd in Hcalls.
  split; [assumption |]. split; [| assumption].
  rewrite Hcalls. rewrite !length_app, length_map, firstn_length_le.
  - simpl. lia.
  - rewrite length_app. simpl. lia.
Qed.

(** ** The history of the batch size *)

Lemma size_history_ok_same B w w' :
  batch_size w' = batch_size w ->
  size_writes w' = size_writes w ->
  size_history_ok B w -> size_history_ok B w'.
Proof.
  unfold size_history_ok, size_history. intros Hb Hs. rewrite Hb, Hs.
  tauto.
Qed.

Lemma sorted_head_least (B : Z) (l : list Z) :
  StronglySorted Z.lt (l ++ [B]) ->
  Forall (fun v => hd B l <= v) (l ++ [B]).
Proof.
  destruct l as [| x l]; simpl; intros Hs.
  - constructor; [lia | constructor].
  - apply StronglySorted_inv in Hs as [_ Hall].
    constructor; [lia |].
    eapply List.Forall_impl; [| exact Hall]. simpl. intros; lia.
Qed.

Lemma reduce_batch_size_history B batch_len w :
  size_history_ok B w -> size_history_ok B (reduce_batch_size batch_len w).
Proof.
  intros (Hhd & Hs & Hf).
  destruct (reduce_batch_size_write batch_len w)
    as [(_ & _ & Hsw & Hb) | (_ & Hsame)].
  - unfold size_history_ok, size_history. rewrite Hsw. simpl.
    split; [reflexivity |]. split.
    + constructor; [assumption |].
      eapply List.Forall_impl; [| apply sorted_head_least; exact Hs].
      simpl. intros v Hv. rewrite Hhd in Hv. lia.
    + constructor; [lia | assumption].
  - rewrite Hsame. repeat split; assumption.
Qed.

Lemma fail_safe_execute_history B work_handler batch w :
  size_history_ok B w ->
  size_history_ok B (fst (_fail_safe_execute work_handler batch w)).
Proof.
  intros Hok.
  destruct (work_handler (hstate w) batch) as [h1 [e |]] eqn:Hh.
  - destruct (retry_exceptions w e) eqn:Hre.
    + destruct (fail_safe_execute_retry _ _ _ _ _ Hh Hre)
        as (_ & _ & _ & Hbs & Hsw & _).
      eapply size_history_ok_same; [exact Hbs | exact Hsw |].
      apply reduce_batch_size_history. assumption.
    + rewrite (fail_safe_execute_fatal _ _ _ _ _ Hh Hre). simpl.
      eapply size_history_ok_same; [| | exact Hok]; reflexivity.
  - rewrite (fail_safe_execute_success _ _ _ _ Hh). simpl.
    eapply size_history_ok_same; [| | exact Hok]; reflexivity.
Qed.

Lemma fail_safe_execute_size work_handler batch w :
  1 <= batch_size w ->
  1 <= batch_size (fst (_fail_safe_execute work_handler batch w))
    <= batch_size w.
Proof.
  intros Hpos.
  destruct (work_handler (hstate w) batch) as [h1 [e |]] eqn:Hh.
  - destruct (retry_exceptions w e) eqn:Hre.
    + destruct (fail_safe_execute_retry _ _ _ _ _ Hh Hre)
        as (_ & _ & _ & Hbs & _).
      rewrite Hbs.
      destruct (reduce_batch_size_write (len batch) w)
        as [(_ & _ & _ & Hb) | (_ & Hsame)]; [lia |].
      rewrite Hsame. lia.
    + rewrite (fail_safe_execute_fatal _ _ _ _ _ Hh Hre). simpl. lia.
  - rewrite (fail_safe_execute_success _ _ _ _ Hh). simpl. lia.
Qed.

Lemma size_history_ok_bounds B w :
  size_history_ok B w -> 1 <= batch_size w <= B.
Proof.
  intros (Hhd & Hs & Hf). rewrite <- Hhd. unfold size_history in *.
  apply sorted_head_least in Hs.
  rewrite List.Forall_forall in Hs, Hf.
  split.
  - apply Hf. destruct (size_writes w); simpl; auto with datatypes.
  - apply Hs. apply in_or_app. right. simpl. auto.
Qed.

Lemma len_app (l1 l2 : list Item) : len (l1 ++ l2) = len l1 + len l2.
Proof. unfold len. rewrite length_app. lia. Qed.


(** ** The batches of a fixed target size *)

Lemma fixed_size_batches_concat B batch items :
  concat (fixed_size_batches B batch items) = batch ++ items.
Proof.
  revert batch. induction items as [| item rest IH]; intros batch; simpl.
  - destruct batch; simpl; rewrite ?app_nil_r; reflexivity.
  - destruct (B <=? len (batch ++ [item])); simpl; rewrite IH;
      rewrite <- ?app_assoc; reflexivity.
Qed.

Lemma fixed_size_batches_bounds B batch items :
  0 < B -> len batch < B ->
  Forall (fun b => 1 <= len b <= B) (fixed_size_batches B batch items).
Proof.
  intros HB. revert batch.
  induction items as [| item rest IH]; intros batch Hlt; simpl.
  - destruct batch as [| b batch]; constructor; [| constructor].
    unfold len in *. simpl in *. lia.
  - assert (Hlen : len (batch ++ [item]) = len batch + 1)
      by (rewrite len_app; reflexivity).
    destruct (Z.leb_spec B (len (batch ++ [item]))) as [Hfull | Hroom].
    + constructor; [lia |]. apply IH. unfold len. simpl. lia.
    + apply IH. lia.
Qed.

Lemma fixed_size_batches_full B batch items :
  len batch < B ->
  Forall (fun b => len b = B)
    (removelast (fixed_size_batches B batch items)).
Proof.
  revert batch.
  induction items as [| item rest IH]; intros batch Hlt; simpl.
  - destruct batch; constructor.
  - assert (Hlen : len (batch ++ [item]) = len batch + 1)
      by (rewrite len_app; reflexivity).
    destruct (Z.leb_spec B (len (batch ++ [item]))) as [Hfull | Hroom].
    + assert (H0 : len ([] : list Item) < B)
        by (unfold len in *; simpl; lia).
      specialize (IH [] H0).
      destruct (fixed_size_batches B [] rest) as [| b bs] eqn:Hb.
      * constructor.
      * change (removelast ((batch ++ [item]) :: b :: bs))
          with ((batch ++ [item]) :: removelast (b :: bs)).
        constructor; [lia | exact IH].
    + apply IH. lia.
Qed.

Lemma fixed_size_batches_4_of_10 items :
  length items = 10%nat ->
  map (@length Item) (fixed_size_batches 4 [] items) = [4; 4; 2]%nat.
Proof.
  intros Hl.
  do 10 (destruct items as [| ? items]; [discriminate Hl |]).
  destruct items; [reflexivity | discriminate Hl].
Qed.

(** ** One unit, step by step *)

(** Lines 64-70 run without another thread in between are the reading
    and the writing step one after the other. *)
Lemma reduce_is_read_then_write batch_len w :
  reduce_batch_size batch_len w
  = write_batch_size (batch_size w) batch_len w.
Proof. reflexivity. Qed.

(** What the writing step does: it either assigns a value that is at
    least 1 and smaller than the value that was read, or nothing. *)
Lemma write_batch_size_cases local batch_len w :
  (local = batch_len /\ 1 < local /\
   exists v, write_batch_size local batch_len w = set_batch_size v w /\
             1 <= v < local /\
             v = (if exponential_backoff w then PyNum.int_truediv_2 local
                  else local - 1))
  \/
  (~ (local = batch_len /\ 1 < local) /\
   write_batch_size local batch_len w = w).
Proof.
  unfold write_batch_size.
  destruct (Z.eqb_spec local batch_len) as [Heq | Hne]; simpl.
  2: { right. split; [tauto | reflexivity]. }
  destruct (Z.ltb_spec 1 local) as [Hgt | Hle]; simpl.
  2: { right. split; [lia | reflexivity]. }
  left. split; [exact Heq |]. split; [exact Hgt |].
  destruct (exponential_backoff w).
  - eexists. split; [reflexivity |]. split; [| reflexivity].
    apply PyNumFacts.int_truediv_2_bounds, Hgt.
  - eexists. split; [reflexivity |]. split; [lia | reflexivity].
Qed.

(** A step changes neither the task's handler and batch nor the pool, the
    latch, the schedule and the configuration. *)
Lemma unit_step_frame (t : @Task Item Exn H) w :
  task_handler (fst (unit_step t w)) = task_handler t /\
  task_batch (fst (unit_step t w)) = task_batch t /\
  pending (snd (unit_step t w)) = pending w /\
  terminal_error (snd (unit_step t w)) = terminal_error w /\
  schedule (snd (unit_step t w)) = schedule w /\
  max_workers (snd (unit_step t w)) = max_workers w /\
  retry_exceptions (snd (unit_step t w)) = retry_exceptions w /\
  exponential_backoff (snd (unit_step t w)) = exponential_backoff w /\
  finished (snd (unit_step t w)) = finished w /\
  total_items (snd (unit_step t w)) = total_items w.
Proof.
  unfold unit_step.
  destruct (task_stage t) as [| | local | [| item rest] | | o].
  - unfold call_handler. simpl.
    destruct (task_handler t (hstate w) (task_batch t)) as [h' [e |]];
      simpl; [destruct (retry_exceptions w e) |]; simpl;
      repeat split; reflexivity.
  - simpl. repeat split; reflexivity.
  - simpl.
    destruct (write_batch_size_cases local (len (task_batch t)) w)
      as [(_ & _ & v & Hw & _) | (_ & Hw)]; rewrite Hw; simpl;
      repeat split; reflexivity.
  - simpl. repeat split; reflexivity.
  - unfold call_handler. simpl.
    destruct (task_handler t (hstate w) [item]) as [h' [e |]]; simpl;
      repeat split; reflexivity.
  - simpl. repeat split; reflexivity.
  - simpl. repeat split; reflexivity.
Qed.

(** The batch size under a step: only the writing step touches it, and a
    task comes to its writing stage only by reading the field. *)
Lemma unit_step_size_view (t : @Task Item Exn H) w :
  (batch_size (snd (unit_step t w)) = batch_size w /\
   size_writes (snd (unit_step t w)) = size_writes w /\
   forall local,
     task_stage (fst (unit_step t w)) = AtWrite local ->
     local = batch_size w)
  \/
  (exists local,
     task_stage t = AtWrite local /\
     snd (unit_step t w) = write_batch_size local (len (task_batch t)) w /\
     task_stage (fst (unit_step t w)) = AtRetry (task_batch t)).
Proof.
  unfold unit_step.
  destruct (task_stage t) as [| | local | [| item rest] | | o] eqn:Hs.
  - left. unfold call_handler. simpl.
    destruct (task_handler t (hstate w) (task_batch t)) as [h' [e |]];
      simpl; [destruct (retry_exceptions w e) |]; simpl;
      repeat split; try reflexivity; intros l Hl; discriminate Hl.
  - left. simpl. repeat split; try reflexivity.
    intros l Hl. injection Hl as <-. reflexivity.
  - right. exists local. simpl. repeat split; reflexivity.
  - left. simpl. repeat split; try reflexivity.
    intros l Hl. discriminate Hl.
  - left. unfold call_handler. simpl.
    destruct (task_handler t (hstate w) [item]) as [h' [e |]]; simpl;
      repeat split; try reflexivity; intros l Hl; discriminate Hl.
  - left. simpl. repeat split; try reflexivity.
    intros l Hl. discriminate Hl.
  - left. simpl. repeat split; try reflexivity.
    intros l Hl. rewrite Hs in Hl. discriminate Hl.
Qed.

(** The progress tracker under a step: only the step of line 74 moves it,
    by the length of the batch, and that step ends the unit. *)
Lemma unit_step_progress_view (t : @Task Item Exn H) w :
  (task_stage t = AtTrack /\
   task_stage (fst (unit_step t w)) = Ended None /\
   processed (snd (unit_step t w)) = processed w + len (task_batch t))
  \/
  (task_stage t <> AtTrack /\
   processed (snd (unit_step t w)) = processed w).
Proof.
  unfold unit_step.
  destruct (task_stage t) as [| | local | [| item rest] | | o] eqn:Hs.
  - right. unfold call_handler. simpl.
    destruct (task_handler t (hstate w) (task_batch t)) as [h' [e |]];
      simpl; [destruct (retry_exceptions w e) |]; simpl;
      split; try reflexivity; discriminate.
  - right. simpl. split; try reflexivity; discriminate.
  - right. simpl.
    destruct (write_batch_size_cases local (len (task_batch t)) w)
      as [(_ & _ & v & Hw & _) | (_ & Hw)]; rewrite Hw; simpl;
      split; try reflexivity; discriminate.
  - right. simpl. split; try reflexivity; discriminate.
  - right. unfold call_handler. simpl.
    destruct (task_handler t (hstate w) [item]) as [h' [e |]]; simpl;
      split; try reflexivity; discriminate.
  - left. simpl. repeat split; reflexivity.
  - right. simpl. split; try reflexivity; discriminate.
Qed.

(** A step brings the unit nearer to its end. *)
Lemma unit_step_decreases (t : @Task Item Exn H) w :
  has_ended t = false ->
  (steps_left (fst (unit_step t w)) < steps_left t)%nat.
Proof.
  unfold unit_step, has_ended, steps_left.
  destruct (task_stage t) as [| | local | [| item rest] | | o] eqn:Hs;
    intros Hne; try discriminate Hne.
  - unfold call_handler. simpl.
    destruct (task_handler t (hstate w) (task_batch t)) as [h' [e |]];
      simpl; [destruct (retry_exceptions w e) |]; simpl; lia.
  - simpl. lia.
  - simpl. lia.
  - simpl. lia.
  - unfold call_handler. simpl.
    destruct (task_handler t (hstate w) [item]) as [h' [e |]]; simpl; lia.
  - simpl. lia.
Qed.

(** The loop of lines 72-73, step by step, then line 74. *)
Lemma run_unit_retry work_handler batch rest w fuel :
  (length rest + 2 <= fuel)%nat ->
  run_unit fuel (mkTask work_handler batch (AtRetry rest)) w
  = match retry_items work_handler rest w with
    | (w', Some e) => (mkTask work_handler batch (Ended (Some e)), w')
    | (w', None) =>
        (mkTask work_handler batch (Ended None),
         progress_track (len batch) w')
    end.
Proof.
  revert w fuel. induction rest as [| item rest IH]; intros w fuel Hf.
  - destruct fuel as [| [| fuel]]; [simpl in Hf; lia .. |].
    simpl. destruct fuel; reflexivity.
  - destruct fuel as [| fuel]; [simpl in Hf; lia |].
    cbn [run_unit task_stage]. unfold unit_step. cbn [task_stage].
    cbn [task_handler]. cbn [retry_items].
    destruct (call_handler work_handler [item] w) as [w' [e |]];
      unfold at_stage; cbn [fst snd task_handler task_batch].
    + destruct fuel; reflexivity.
    + apply IH. simpl in Hf. lia.
Qed.

Lemma run_unit_step fuel (t : @Task Item Exn H) w :
  has_ended t = false ->
  run_unit (S fuel) t w
  = run_unit fuel (fst (unit_step t w)) (snd (unit_step t w)).
Proof.
  unfold has_ended. cbn [run_unit].
  destruct (task_stage t); intros Hne; try reflexivity; discriminate Hne.
Qed.

Lemma run_unit_ended fuel work_handler batch (o : option Exn) w :
  run_unit fuel (mkTask work_handler batch (Ended o)) w
  = (mkTask work_handler batch (Ended o), w).
Proof. destruct fuel; reflexivity. Qed.

(** A unit that runs from its first stage with no other thread in between
    does what [_fail_safe_execute] does. *)
Lemma run_unit_is_fail_safe_execute work_handler batch w :
  run_unit (steps_left (mkTask work_handler batch AtCall))
    (mkTask work_handler batch AtCall) w
  = (mkTask work_handler batch
       (Ended (snd (_fail_safe_execute work_handler batch w))),
     fst (_fail_safe_execute work_handler batch w)).
Proof.
  unfold steps_left. cbn [task_stage task_batch].
  replace (length batch + 5)%nat with (S (S (S (S (S (length batch))))))
    by lia.
  rewrite run_unit_step by reflexivity.
  unfold unit_step at 1 2. cbn [task_stage task_handler task_batch].
  unfold _fail_safe_execute.
  destruct (call_handler work_handler batch (set_counter (counter w + 1) w))
    as [w2 [e |]].
  - destruct (retry_exceptions w2 e);
      cbn [fst snd at_stage task_handler task_batch].
    + rewrite run_unit_step by reflexivity.
      unfold unit_step at 1 2.
      cbn [task_stage fst snd at_stage task_handler task_batch].
      rewrite run_unit_step by reflexivity.
      unfold unit_step at 1 2.
      cbn [task_stage fst snd at_stage task_handler task_batch].
      unfold at_stage. cbn [task_handler task_batch].
      rewrite <- reduce_is_read_then_write.
      rewrite run_unit_retry by lia.
      destruct (retry_items work_handler batch
                  (reduce_batch_size (len batch)
                     (set_counter (counter w2 - 1) w2))) as [w5 [e' |]];
        reflexivity.
    + unfold at_stage. cbn [task_handler task_batch].
      rewrite run_unit_ended. reflexivity.
  - cbn [fst snd at_stage task_handler task_batch].
    rewrite run_unit_step by reflexivity.
    unfold unit_step.
    cbn [task_stage fst snd at_stage task_handler task_batch].
    unfold at_stage. cbn [task_handler task_batch].
    rewrite run_unit_ended. reflexivity.
Qed.

(** ** The pool, step by step *)

Lemma pending_latch (o : option Exn) w :
  pending (latch o w) = pending w.
Proof.
  unfold latch. destruct o; [destruct (terminal_error w) |]; reflexivity.
Qed.

Lemma step_at_none i w : pending w !! i = None -> step_at i w = w.
Proof. unfold step_at. intros ->. reflexivity. Qed.

(** The step of the task at position [i], with the tasks before and after
    it. *)
Lemma step_at_split i w t :
  pending w !! i = Some t ->
  exists l1 l2,
    pending w = l1 ++ t :: l2 /\ length l1 = i /\
    step_at i w
    = match task_stage (fst (unit_step t w)) with
      | Ended o => latch o (set_pending (l1 ++ l2) (snd (unit_step t w)))
      | _ =>
          set_pending (l1 ++ fst (unit_step t w) :: l2)
            (snd (unit_step t w))
      end.
Proof.
  intros Hi.
  assert (Hlt : (i < length (pending w))%nat)
    by (eapply lookup_lt_Some; exact Hi).
  exists (take i (pending w)), (drop (S i) (pending w)).
  split; [symmetry; apply take_drop_middle, Hi |].
  split; [apply length_take_le; lia |].
  unfold step_at. rewrite Hi. cbv zeta.
  rewrite delete_take_drop, insert_take_drop by exact Hlt.
  reflexivity.
Qed.

Lemma step_at_length i w :
  (length (pending (step_at i w)) <= length (pending w))%nat.
Proof.
  destruct (pending w !! i) as [t |] eqn:Hi;
    [| rewrite (step_at_none _ _ Hi); lia].
  destruct (step_at_split i w t Hi) as (l1 & l2 & Hp & _ & Hs).
  rewrite Hs, Hp.
  destruct (task_stage (fst (unit_step t w))); cbv iota;
    rewrite ?pending_latch; simpl; rewrite !length_app; simpl; lia.
Qed.

Lemma finish_head_done fuel n w :
  (length (pending w) <= n)%nat -> finish_head fuel n w = w.
Proof.
  intros Hl. destruct fuel; simpl; [reflexivity |].
  apply Nat.leb_le in Hl. rewrite Hl. reflexivity.
Qed.

(** The oldest task does leave the pool. *)
Lemma finish_head_length fuel w t rest :
  pending w = t :: rest -> (steps_left t < fuel)%nat ->
  length (pending (finish_head fuel (length rest) w)) = length rest.
Proof.
  revert w t. induction fuel as [| fuel IH]; intros w t Hp Hf; [lia |].
  cbn [finish_head]. rewrite Hp. cbn [length].
  destruct (Nat.leb_spec (S (length rest)) (length rest)) as [Hle | _];
    [lia |].
  assert (Hi : pending w !! O = Some t) by (rewrite Hp; reflexivity).
  destruct (step_at_split O w t Hi) as (l1 & l2 & Hp' & Hl1 & Hs).
  destruct l1; [| discriminate Hl1]. simpl in Hp'. rewrite Hp in Hp'.
  injection Hp' as <-.
  pose proof (unit_step_decreases t w) as Hdec.
  assert (Hend : has_ended t = true -> unit_step t w = (t, w)).
  { unfold has_ended, unit_step.
    destruct (task_stage t); intros Ht; try discriminate Ht. reflexivity. }
  destruct (task_stage (fst (unit_step t w))) as [| | l | r | | o] eqn:Hst.
  6: { rewrite finish_head_done; rewrite Hs; cbv iota;
       rewrite pending_latch; simpl; lia. }
  all: destruct (has_ended t) eqn:Hne;
    [ rewrite (Hend eq_refl) in Hst; simpl in Hst; unfold has_ended in Hne;
      rewrite Hst in Hne; discriminate Hne
    | apply (IH _ (fst (unit_step t w)));
      [ rewrite Hs; reflexivity | specialize (Hdec eq_refl); lia ] ].
Qed.

Lemma finish_oldest_length w :
  length (pending (finish_oldest w)) = pred (length (pending w)).
Proof.
  unfold finish_oldest. destruct (pending w) as [| t rest] eqn:Hp.
  - rewrite Hp. reflexivity.
  - cbn [length Nat.pred].
    apply (finish_head_length _ _ t); [exact Hp | lia].
Qed.

Lemma finish_oldest_n_length k w :
  length (pending (finish_oldest_n k w)) = (length (pending w) - k)%nat.
Proof.
  revert w. induction k as [| k IH]; intros w; simpl; [lia |].
  rewrite IH, finish_oldest_length. lia.
Qed.

(** [shutdown] leaves no task in flight. *)
Lemma drain_empty w : pending (drain w) = [].
Proof.
  unfold drain. apply length_zero_iff_nil.
  rewrite finish_oldest_n_length. lia.
Qed.

Lemma latch_cases (o : option Exn) w :
  latch o w = w \/
  exists e, o = Some e /\ terminal_error w = None /\
            latch o w = set_terminal_error (Some e) w.
Proof.
  unfold latch. destruct o as [e |]; [| left; reflexivity].
  destruct (terminal_error w) eqn:Ht; [left; reflexivity |].
  right. exists e. repeat split; assumption.
Qed.

(** What a step of the pool does to the tasks in flight: nothing, or the
    task at that position moves on, or it leaves the pool. *)
Lemma step_at_cases i w :
  step_at i w = w \/
  exists l1 t l2,
    pending w = l1 ++ t :: l2 /\ length l1 = i /\
    ((exists o,
        task_stage (fst (unit_step t w)) = Ended o /\
        step_at i w = latch o (set_pending (l1 ++ l2) (snd (unit_step t w))))
     \/
     (has_ended (fst (unit_step t w)) = false /\
      step_at i w
      = set_pending (l1 ++ fst (unit_step t w) :: l2)
          (snd (unit_step t w)))).
Proof.
  destruct (pending w !! i) as [t |] eqn:Hi;
    [| left; apply step_at_none, Hi].
  right. destruct (step_at_split i w t Hi) as (l1 & l2 & Hp & Hl & Hs).
  exists l1, t, l2. split; [exact Hp |]. split; [exact Hl |].
  unfold has_ended.
  destruct (task_stage (fst (unit_step t w))) as [| | l | r | | o];
    try (right; split; [reflexivity | exact Hs]).
  left. exists o. split; [reflexivity | exact Hs].
Qed.

(** ** Invariants of a run *)

Section PoolInvariant.

(** [I x] is a property of the executor's state, indexed by what has been
    submitted so far; [push] records one more batch.  Every step of a task
    that may run keeps it, and so does queueing a task for
    [work_handler]. *)
Variable Ix : Type.
Variable I : Ix -> @World Item Exn H -> Prop.
Variable work_handler : @Handler Item Exn H.
Variable push : Ix -> list Item -> Ix.

Hypothesis I_step :
  forall x i w,
    I x w -> (i < Z.to_nat (max_workers w))%nat \/ i = O ->
    I x (step_at i w).
Hypothesis I_schedule : forall x s w, I x w -> I x (set_schedule s w).
Hypothesis I_enqueue :
  forall x batch w,
    I x w ->
    I (push x batch)
      (set_pending (pending w ++ [mkTask work_handler batch AtCall]) w).

Lemma pool_step_keeps x i w : I x w -> I x (pool_step i w).
Proof.
  intros HI. unfold pool_step.
  destruct (Nat.ltb_spec i (Z.to_nat (max_workers w))); [| exact HI].
  apply I_step; [exact HI | left; assumption].
Qed.

Lemma pool_steps_keeps x choices w : I x w -> I x (pool_steps choices w).
Proof.
  revert w. induction choices as [| i rest IH]; intros w HI; simpl;
    [exact HI | apply IH, pool_step_keeps, HI].
Qed.

Lemma finish_head_keeps x fuel n w : I x w -> I x (finish_head fuel n w).
Proof.
  revert w. induction fuel as [| fuel IH]; intros w HI; simpl;
    [exact HI |].
  destruct (length (pending w) <=? n)%nat; [exact HI |].
  apply IH, I_step; [exact HI | right; reflexivity].
Qed.

Lemma finish_oldest_keeps x w : I x w -> I x (finish_oldest w).
Proof.
  intros HI. unfold finish_oldest.
  destruct (pending w); [exact HI | apply finish_head_keeps, HI].
Qed.

Lemma finish_oldest_n_keeps x k w : I x w -> I x (finish_oldest_n k w).
Proof.
  revert w. induction k as [| k IH]; intros w HI; simpl;
    [exact HI | apply IH, finish_oldest_keeps, HI].
Qed.

Lemma submit_keeps x batch w :
  I x w ->
  (snd (submit work_handler batch w) = None /\
   I (push x batch) (fst (submit work_handler batch w)))
  \/
  (exists e,
     snd (submit work_handler batch w) = Some e /\
     terminal_error (fst (submit work_handler batch w)) = Some e /\
     I x (fst (submit work_handler batch w))).
Proof.
  intros HI. unfold submit. cbv zeta.
  set (turn := hd (mkTurn [] [] []) (schedule w)).
  assert (H0 : I x (pool_steps (before_check turn)
                      (set_schedule (tl (schedule w)) w)))
    by (apply pool_steps_keeps, I_schedule, HI).
  destruct (terminal_error
              (pool_steps (before_check turn)
                 (set_schedule (tl (schedule w)) w))) as [e |] eqn:Hte.
  - right. exists e. split; [reflexivity |]. split; assumption.
  - left. split; [reflexivity |]. cbn [fst].
    apply pool_steps_keeps, I_enqueue.
    unfold make_room. apply finish_oldest_n_keeps, pool_steps_keeps, H0.
Qed.

(** The loop of [execute]: the batches submitted are consecutive segments
    of the source, in order; when the loop ends by an exception, it is
    the latched one, and the batch that met it was not submitted. *)
Lemma iterator_keeps items :
  forall batch target x w,
    I x w ->
    exists bs rest,
      I (fold_left push bs x)
        (fst (dynamic_batch_iterator_from items batch_size
                (submit work_handler) batch target w)) /\
      concat bs ++ rest = batch ++ items /\
      (snd (dynamic_batch_iterator_from items batch_size
              (submit work_handler) batch target w) = None -> rest = []) /\
      (forall e,
         snd (dynamic_batch_iterator_from items batch_size
                (submit work_handler) batch target w) = Some e ->
         terminal_error
           (fst (dynamic_batch_iterator_from items batch_size
                   (submit work_handler) batch target w)) = Some e).
Proof.
  induction items as [| item rest IH]; intros batch target x w HI.
  - cbn [dynamic_batch_iterator_from]. destruct batch as [| b batch].
    + exists [], []. simpl. repeat split; trivial. discriminate.
    + destruct (submit_keeps x (b :: batch) w HI)
        as [(Hout & HI') | (e & Hout & Hte & HI')].
      * exists [b :: batch], []. simpl. rewrite !app_nil_r.
        repeat split; trivial.
        intros e He. rewrite Hout in He. discriminate He.
      * exists [], (b :: batch). simpl. rewrite app_nil_r.
        split; [exact HI' |]. split; [reflexivity |].
        split; [rewrite Hout; discriminate |].
        intros e' He. rewrite Hout in He. injection He as <-. exact Hte.
  - cbn [dynamic_batch_iterator_from]. cbv zeta.
    destruct (target <=? len (batch ++ [item])).
    + destruct (submit_keeps x (batch ++ [item]) w HI)
        as [(Hout & HI') | (e & Hout & Hte & HI')].
      * destruct (submit work_handler (batch ++ [item]) w)
          as [w' o] eqn:Hsub.
        cbn [fst snd] in Hout, HI'. subst o.
        destruct (IH [] (batch_size w') _ w' HI')
          as (bs & rest' & H1 & H2 & H3 & H4).
        exists ((batch ++ [item]) :: bs), rest'.
        split; [exact H1 |].
        split; [| split; assumption].
        simpl. simpl in H2. rewrite <- !app_assoc. simpl. rewrite H2.
        reflexivity.
      * destruct (submit work_handler (batch ++ [item]) w)
          as [w' o] eqn:Hsub.
        cbn [fst snd] in Hout, HI', Hte. subst o.
        exists [], (batch ++ item :: rest). simpl.
        split; [exact HI' |]. split; [reflexivity |].
        split; [discriminate |].
        intros e' He. injection He as <-. exact Hte.
    + destruct (IH (batch ++ [item]) target x w HI)
        as (bs & rest' & H1 & H2 & H3 & H4).
      exists bs, rest'. split; [exact H1 |].
      split; [| split; assumption].
      rewrite H2, <- app_assoc. reflexivity.
Qed.

(** [shutdown]: the invariant holds of the drained pool. *)
Lemma shutdown_keeps x w :
  I x w ->
  exists w1,
    I x w1 /\ pending w1 = [] /\
    shutdown w
    = match terminal_error w1 with
      | Some e => (w1, Some e)
      | None => (progress_finish w1, None)
      end.
Proof.
  intros HI.
  exists (drain (pool_steps
                   (before_check (hd (mkTurn [] [] []) (schedule w)))
                   (set_schedule (tl (schedule w)) w))).
  split; [| split; [apply drain_empty | reflexivity]].
  unfold drain. apply finish_oldest_n_keeps, pool_steps_keeps, I_schedule.
  exact HI.
Qed.

(** When the invariant fixes the batch size at [B] and rules out a
    latched exception, the loop submits the batches of size [B]. *)
Variable B : Z.
Hypothesis I_size : forall x w, I x w -> batch_size w = B.
Hypothesis I_quiet : forall x w, I x w -> terminal_error w = None.

Lemma iterator_steady items :
  forall batch x w,
    I x w ->
    snd (dynamic_batch_iterator_from items batch_size
           (submit work_handler) batch B w) = None /\
    I (fold_left push (fixed_size_batches B batch items) x)
      (fst (dynamic_batch_iterator_from items batch_size
              (submit work_handler) batch B w)).
Proof.
  assert (Hsub : forall x batch w,
            I x w ->
            snd (submit work_handler batch w) = None /\
            I (push x batch) (fst (submit work_handler batch w))).
  { intros x batch w HI.
    destruct (submit_keeps x batch w HI)
      as [Hok | (e & _ & Hte & HI')]; [exact Hok |].
    rewrite (I_quiet _ _ HI') in Hte. discriminate Hte. }
  induction items as [| item rest IH]; intros batch x w HI.
  - cbn [dynamic_batch_iterator_from fixed_size_batches].
    destruct batch as [| b batch]; [split; [reflexivity | exact HI] |].
    apply Hsub, HI.
  - cbn [dynamic_batch_iterator_from fixed_size_batches]. cbv zeta.
    destruct (B <=? len (batch ++ [item])); [| apply IH, HI].
    destruct (Hsub x (batch ++ [item]) w HI) as (Hout & HI').
    destruct (submit work_handler (batch ++ [item]) w) as [w' o].
    cbn [fst snd] in Hout, HI'. subst o.
    rewrite (I_size _ _ HI'). cbn [fold_left]. apply IH, HI'.
Qed.

End PoolInvariant.

(** ** The batch size with several workers *)

Lemma size_in_range_latch B (o : option Exn) w :
  size_in_range B w -> size_in_range B (latch o w).
Proof.
  intros HI.
  destruct (latch_cases o w) as [-> | (e & _ & _ & ->)]; exact HI.
Qed.

Lemma size_in_range_step B i w :
  size_in_range B w -> size_in_range B (step_at i w).
Proof.
  intros (Hb & Hw & Hp).
  destruct (step_at_cases i w)
    as [-> | (l1 & t & l2 & Hpend & _ & Hcase)];
    [split; [| split]; assumption |].
  rewrite Hpend in Hp. apply Forall_app in Hp as (Hl1 & Hp).
  apply Forall_cons in Hp as (Ht & Hl2).
  assert (Hw' : 1 <= batch_size (snd (unit_step t w)) <= B /\
                Forall (fun v => 1 <= v < B)
                  (size_writes (snd (unit_step t w))) /\
                (forall local,
                   task_stage (fst (unit_step t w)) = AtWrite local ->
                   local <= B)).
  { destruct (unit_step_size_view t w)
      as [(Hbs & Hsw & Hloc) | (local & Hst & Hsnd & Hst')].
    - rewrite Hbs, Hsw. split; [exact Hb |]. split; [exact Hw |].
      intros local Hl. rewrite (Hloc _ Hl). lia.
    - rewrite Hsnd, Hst'. specialize (Ht _ Hst).
      destruct (write_batch_size_cases local (len (task_batch t)) w)
        as [(_ & _ & v & Hwr & Hv & _) | (_ & Hwr)]; rewrite Hwr.
      + simpl. split; [lia |]. split; [constructor; [lia | exact Hw] |].
        intros l Hl. discriminate Hl.
      + split; [exact Hb |]. split; [exact Hw |].
        intros l Hl. discriminate Hl. }
  destruct Hw' as (Hb' & Hwr' & Ht').
  destruct Hcase as [(o & _ & ->) | (_ & ->)].
  - apply size_in_range_latch.
    split; [exact Hb' |]. split; [exact Hwr' |].
    simpl. apply Forall_app. split; assumption.
  - split; [exact Hb' |]. split; [exact Hwr' |].
    simpl. apply Forall_app. split; [exact Hl1 |].
    apply Forall_cons. split; assumption.
Qed.

Lemma size_in_range_run B items work_handler (total : option Z) w :
  size_in_range B w ->
  size_in_range B (fst (execute items work_handler total w)) /\
  size_in_range B
    (fst (shutdown (fst (execute items work_handler total w)))).
Proof.
  intros HI.
  set (I := fun (_ : unit) (w0 : @World Item Exn H) => size_in_range B w0).
  assert (I_step : forall x i w0,
            I x w0 -> (i < Z.to_nat (max_workers w0))%nat \/ i = O ->
            I x (step_at i w0))
    by (intros x i w0 H0 _; apply size_in_range_step, H0).
  assert (I_schedule : forall x s w0, I x w0 -> I x (set_schedule s w0))
    by (intros x s w0 H0; exact H0).
  assert (I_enqueue : forall x batch w0,
            I x w0 ->
            I x (set_pending
                   (pending w0 ++ [mkTask work_handler batch AtCall]) w0)).
  { intros x batch w0 (H1 & H2 & H3).
    split; [exact H1 |]. split; [exact H2 |].
    simpl. apply Forall_app. split; [exact H3 |].
    constructor; [| constructor]. intros l Hl. discriminate Hl. }
  assert (H1 : size_in_range B (fst (execute items work_handler total w))).
  { destruct (iterator_keeps unit I work_handler (fun x _ => x)
                I_step I_schedule I_enqueue items []
                (batch_size (progress_start total w)) tt
                (progress_start total w) HI)
      as (bs & rest & HI1 & _).
    assert (Hx : fold_left (fun (x : unit) (_ : list Item) => x) bs tt = tt)
      by (destruct (fold_left _ bs tt); reflexivity).
    rewrite Hx in HI1. exact HI1. }
  split; [exact H1 |].
  destruct (shutdown_keeps unit I I_step I_schedule tt _ H1)
    as (w1 & HI2 & _ & Hsh).
  rewrite Hsh. destruct (terminal_error w1); exact HI2.
Qed.

(** ** The batch size with a single worker *)

Section SingleWorker.

(** [P] looks at the batch size, at its write log and at the backoff mode
    only, and lines 64-70 run without interruption keep it. *)
Variable P : @World Item Exn H -> Prop.
Hypothesis P_frame :
  forall w w',
    batch_size w' = batch_size w -> size_writes w' = size_writes w ->
    exponential_backoff w' = exponential_backoff w -> P w -> P w'.
Hypothesis P_reduce : forall n w, P w -> P (reduce_batch_size n w).

Lemma single_worker_step i w :
  one_at_a_time w /\ P w ->
  (i < Z.to_nat (max_workers w))%nat \/ i = O ->
  one_at_a_time (step_at i w) /\ P (step_at i w).
Proof.
  intros ((HW & Htl & Hhd) & HP) Hi.
  assert (i = O) by (rewrite HW in Hi; lia). subst i.
  destruct (step_at_cases O w)
    as [-> | (l1 & t & l2 & Hpend & Hl1 & Hcase)];
    [split; [split; [| split] |]; assumption |].
  destruct l1; [| discriminate Hl1]. simpl in Hpend, Hcase.
  rewrite Hpend in Htl, Hhd. simpl in Htl.
  specialize (Hhd t). simpl in Hhd.
  pose proof (unit_step_frame t w)
    as (_ & _ & _ & _ & _ & HW' & _ & He' & _).
  assert (Hu : P (snd (unit_step t w)) /\
               forall local,
                 task_stage (fst (unit_step t w)) = AtWrite local ->
                 local = batch_size (snd (unit_step t w))).
  { destruct (unit_step_size_view t w)
      as [(Hbs & Hsw & Hloc) | (local & Hst & Hsnd & Hst')].
    - split; [apply (P_frame w); assumption |].
      intros local Hl. rewrite Hbs. apply Hloc, Hl.
    - rewrite (Hhd local eq_refl Hst) in Hsnd.
      rewrite <- reduce_is_read_then_write in Hsnd. rewrite Hsnd.
      split; [apply P_reduce, HP |].
      intros l Hl. rewrite Hst' in Hl. discriminate Hl. }
  destruct Hu as (HP' & Hloc').
  destruct Hcase as [(o & _ & ->) | (_ & ->)].
  - assert (Hone : one_at_a_time (set_pending l2 (snd (unit_step t w)))).
    { split; [simpl; congruence |]. simpl. split.
      - destruct l2 as [| t2 l2]; [constructor |].
        apply Forall_cons in Htl as (_ & Htl). exact Htl.
      - intros t2 local Ht2 Hst.
        destruct l2 as [| t3 l2]; [discriminate Ht2 |].
        injection Ht2 as ->.
        apply Forall_cons in Htl as (Hc & _).
        rewrite Hc in Hst. discriminate Hst. }
    assert (HP2 : P (set_pending l2 (snd (unit_step t w))))
      by (apply (P_frame (snd (unit_step t w))); trivial).
    destruct (latch_cases o (set_pending l2 (snd (unit_step t w))))
      as [-> | (e & _ & _ & ->)]; [split; assumption |].
    split; [exact Hone |].
    apply (P_frame (set_pending l2 (snd (unit_step t w)))); trivial.
  - split.
    + split; [simpl; congruence |]. simpl. split; [exact Htl |].
      intros t2 local Ht2 Hst. injection Ht2 as <-. apply Hloc', Hst.
    + apply (P_frame (snd (unit_step t w))); trivial.
Qed.

Lemma single_worker_run items work_handler (total : option Z) w :
  one_at_a_time w -> P w ->
  P (fst (execute items work_handler total w)) /\
  P (fst (shutdown (fst (execute items work_handler total w)))).
Proof.
  intros Hone HP.
  set (I := fun (_ : unit) (w0 : @World Item Exn H) =>
              one_at_a_time w0 /\ P w0).
  assert (I_step : forall x i w0,
            I x w0 -> (i < Z.to_nat (max_workers w0))%nat \/ i = O ->
            I x (step_at i w0))
    by (intros x i w0; apply single_worker_step).
  assert (I_schedule : forall x s w0, I x w0 -> I x (set_schedule s w0)).
  { intros x s w0 (H1 & H2). split; [exact H1 |].
    apply (P_frame w0); trivial. }
  assert (I_enqueue : forall x batch w0,
            I x w0 ->
            I x (set_pending
                   (pending w0 ++ [mkTask work_handler batch AtCall]) w0)).
  { intros x batch w0 ((H1 & H2 & H3) & H4).
    split; [| apply (P_frame w0); trivial].
    split; [exact H1 |]. simpl.
    destruct (pending w0) as [| t0 rest]; simpl in *.
    - split; [constructor |].
      intros t local Ht Hst. injection Ht as <-. discriminate Hst.
    - split; [| exact H3].
      apply Forall_app. split; [exact H2 |].
      constructor; [reflexivity | constructor]. }
  assert (Hstart : I tt (progress_start total w)).
  { split; [exact Hone | apply (P_frame w); trivial]. }
  assert (H1 : I tt (fst (execute items work_handler total w))).
  { destruct (iterator_keeps unit I work_handler (fun x _ => x)
                I_step I_schedule I_enqueue items []
                (batch_size (progress_start total w)) tt
                (progress_start total w) Hstart)
      as (bs & rest & HI1 & _).
    assert (Hx : fold_left (fun (x : unit) (_ : list Item) => x) bs tt = tt)
      by (destruct (fold_left _ bs tt); reflexivity).
    rewrite Hx in HI1. exact HI1. }
  split; [apply H1 |].
  destruct (shutdown_keeps unit I I_step I_schedule tt _ H1)
    as (w1 & (_ & HP2) & _ & Hsh).
  rewrite Hsh. destruct (terminal_error w1); [exact HP2 |].
  apply (P_frame w1); trivial.
Qed.

End SingleWorker.

(** With a single worker the values the field holds are strictly
    decreasing. *)
Lemma single_worker_history B items work_handler (total : option Z) w :
  one_at_a_time w -> size_history_ok B w ->
  size_history_ok B (fst (execute items work_handler total w)) /\
  size_history_ok B
    (fst (shutdown (fst (execute items work_handler total w)))).
Proof.
  apply (single_worker_run (size_history_ok B)).
  - intros w0 w' Hb Hs _. apply size_history_ok_same; assumption.
  - intros n w0. apply reduce_batch_size_history.
Qed.

(** ** The items in flight *)

Lemma len_nonneg (l : list Item) : 0 <= len l.
Proof. unfold len. lia. Qed.

Lemma items_in_flight_app (l1 l2 : list (@Task Item Exn H)) :
  len (concat (map task_batch (l1 ++ l2)))
  = len (concat (map task_batch l1)) + len (concat (map task_batch l2)).
Proof. rewrite map_app, concat_app. apply len_app. Qed.

Lemma items_in_flight_cons (t : @Task Item Exn H) l :
  len (concat (map task_batch (t :: l)))
  = len (task_batch t) + len (concat (map task_batch l)).
Proof. simpl. apply len_app. Qed.

Lemma init_one_at_a_time (B : Z) (retry : Exn -> bool) (exp : bool) (h0 : H)
    (sched : list Turn) :
  one_at_a_time (@__init__ Item Exn H B 1 retry exp h0 sched).
Proof.
  split; [reflexivity |]. simpl. split; [constructor |].
  intros t local Ht. discriminate Ht.
Qed.

(** C6 (amended): for a positive starting batch size [B], whatever the
    workers interleave, the batch-size field stays between 1 and [B]
    during [execute] and [shutdown]; every value written to it is at least
    1 and below [B], being below the value its unit read at line 64; with
    a single worker the values the field holds are strictly decreasing;
    and a processing unit that runs with no other thread in between never
    leaves the field larger than it found it. *)
Theorem batch_size_stays_in_range
    (B W : Z) (retry : Exn -> bool) (exp : bool) (h0 : H)
    (sched : list Turn) items work_handler (total : option Z) :
  0 < B ->
  let w1 :=
    fst (execute items work_handler total
           (__init__ B W retry exp h0 sched)) in
  let w2 := fst (shutdown w1) in
  1 <= batch_size w1 <= B /\ 1 <= batch_size w2 <= B /\
  Forall (fun v => 1 <= v < B) (size_writes w2) /\
  (forall local batch_len (w : @World Item Exn H),
     write_batch_size local batch_len w = w \/
     exists v, write_batch_size local batch_len w = set_batch_size v w /\
               1 <= v < local) /\
  (W = 1 -> size_history_ok B w1 /\ size_history_ok B w2) /\
  (forall work_handler' batch w,
     1 <= batch_size w ->
     1 <= batch_size (fst (_fail_safe_execute work_handler' batch w))
       <= batch_size w).
Proof.
  intros HB w1 w2.
  assert (H0 : size_in_range B
                 (@__init__ Item Exn H B W retry exp h0 sched)).
  { split; [simpl; lia |]. split; constructor. }
  destruct (size_in_range_run B items work_handler total _ H0)
    as ((Hb1 & _) & (Hb2 & Hw2 & _)).
  split; [exact Hb1 |]. split; [exact Hb2 |]. split; [exact Hw2 |].
  split; [| split].
  - intros local batch_len w.
    destruct (write_batch_size_cases local batch_len w)
      as [(_ & _ & v & Hwr & Hv & _) | (_ & Hwr)];
      [right; exists v; split; assumption | left; exact Hwr].
  - intros ->. apply single_worker_history.
    + apply init_one_at_a_time.
    + unfold size_history_ok, size_history. simpl.
      split; [reflexivity |]. split; repeat constructor. lia.
  - intros work_handler' batch w. apply fail_safe_execute_size.
Qed.

(** ** Runs in which the handler never raises *)

Lemma awaiting_app (l1 l2 : list (@Task Item Exn H)) :
  map task_batch (List.filter at_call (l1 ++ l2))
  = map task_batch (List.filter at_call l1)
    ++ map task_batch (List.filter at_call l2).
Proof. rewrite List.filter_app, map_app. reflexivity. Qed.

Lemma replay_app work_handler (h0 : H) log batch :
  replay work_handler h0 (log ++ [batch])
  = fst (work_handler (replay work_handler h0 log) batch).
Proof. unfold replay. rewrite fold_left_app. reflexivity. Qed.

(** The steps of a unit whose handler succeeds: the invocation, then
    line 74. *)
Lemma unit_step_succeeds work_handler (t : @Task Item Exn H) w :
  always_succeeds work_handler -> task_handler t = work_handler ->
  (task_stage t = AtCall ->
   task_stage (fst (unit_step t w)) = AtTrack /\
   calls (snd (unit_step t w)) = calls w ++ [task_batch t] /\
   hstate (snd (unit_step t w))
   = fst (work_handler (hstate w) (task_batch t)) /\
   processed (snd (unit_step t w)) = processed w /\
   batch_size (snd (unit_step t w)) = batch_size w) /\
  (task_stage t = AtTrack ->
   task_stage (fst (unit_step t w)) = Ended None /\
   calls (snd (unit_step t w)) = calls w /\
   hstate (snd (unit_step t w)) = hstate w /\
   processed (snd (unit_step t w)) = processed w + len (task_batch t) /\
   batch_size (snd (unit_step t w)) = batch_size w).
Proof.
  intros Hh Hwh. split; intros Hst; unfold unit_step; rewrite Hst.
  - unfold call_handler. simpl. rewrite Hwh.
    specialize (Hh (hstate w) (task_batch t)).
    destruct (work_handler (hstate w) (task_batch t)) as [h' [e |]];
      simpl in *; [discriminate Hh |].
    repeat split; reflexivity.
  - simpl. repeat split; reflexivity.
Qed.

Lemma undisturbed_step B work_handler h0 bs i w :
  always_succeeds work_handler ->
  undisturbed B work_handler h0 bs w ->
  undisturbed B work_handler h0 bs (step_at i w).
Proof.
  intros Hh (Hte & Hbs & Hall & Hperm & HM & Hhs).
  destruct (step_at_cases i w)
    as [-> | (l1 & t & l2 & Hpend & _ & Hcase)].
  { split; [| split; [| split; [| split; [| split]]]]; assumption. }
  unfold backlog in HM. unfold awaiting_call in Hperm.
  rewrite Hpend in HM, Hall, Hperm.
  rewrite items_in_flight_app, items_in_flight_cons in HM.
  rewrite awaiting_app in Hperm.
  apply Forall_app in Hall as (Hl1 & Hall).
  apply Forall_cons in Hall as ((Hwh & Hst) & Hl2).
  pose proof (unit_step_frame t w) as (Hh' & Hbatch & _ & Hte' & _).
  destruct (unit_step_succeeds work_handler t w Hh Hwh) as (Hcall & Htrack).
  destruct Hst as [Hst | Hst].
  - destruct (Hcall Hst) as (Hst' & Hc & Hs & Hpr & Hb).
    destruct Hcase as [(o & Ho & _) | (_ & ->)];
      [rewrite Hst' in Ho; discriminate Ho |].
    unfold undisturbed, backlog, awaiting_call. simpl.
    rewrite items_in_flight_app, items_in_flight_cons, awaiting_app.
    rewrite Hbatch, Hpr, Hb, Hc, Hs, Hte'. simpl.
    unfold at_call at 2. rewrite Hst'.
    split; [exact Hte |]. split; [exact Hbs |].
    split; [| split; [| split; [exact HM |]]].
    + apply Forall_app. split; [exact Hl1 |].
      apply Forall_cons. split; [| exact Hl2].
      split; [congruence | right; exact Hst'].
    + simpl in Hperm. unfold at_call at 2 in Hperm. rewrite Hst in Hperm.
      simpl in Hperm.
      etransitivity; [| exact Hperm].
      rewrite <- app_assoc. apply Permutation_app_head.
      simpl. apply Permutation_middle.
    + rewrite replay_app, Hhs. reflexivity.
  - destruct (Htrack Hst) as (Hst' & Hc & Hs & Hpr & Hb).
    destruct Hcase as [(o & Ho & ->) | (Hne & _)].
    2: { unfold has_ended in Hne. rewrite Hst' in Hne. discriminate Hne. }
    rewrite Hst' in Ho. injection Ho as <-.
    unfold latch, undisturbed, backlog, awaiting_call. simpl.
    rewrite items_in_flight_app, awaiting_app.
    rewrite Hpr, Hb, Hc, Hs, Hte'.
    split; [exact Hte |]. split; [exact Hbs |].
    split; [apply Forall_app; split; assumption |].
    split; [| split; [lia | exact Hhs]].
    simpl in Hperm. unfold at_call at 2 in Hperm. rewrite Hst in Hperm.
    exact Hperm.
Qed.

Lemma undisturbed_enqueue B work_handler h0 bs batch w :
  undisturbed B work_handler h0 bs w ->
  undisturbed B work_handler h0 (bs ++ [batch])
    (set_pending (pending w ++ [mkTask work_handler batch AtCall]) w).
Proof.
  intros (Hte & Hbs & Hall & Hperm & HM & Hhs).
  unfold undisturbed, backlog, awaiting_call in *. simpl.
  rewrite items_in_flight_app, items_in_flight_cons, awaiting_app. simpl.
  assert (Hnil : len ([] : list Item) = 0) by reflexivity.
  rewrite Hnil, concat_app, len_app. simpl. rewrite app_nil_r.
  split; [exact Hte |]. split; [exact Hbs |].
  split; [| split; [| split; [lia | exact Hhs]]].
  - apply Forall_app. split; [exact Hall |].
    constructor; [split; [reflexivity | left; reflexivity] | constructor].
  - rewrite app_assoc. apply Permutation_app_tail. exact Hperm.
Qed.

Lemma fold_push_batches (bs acc : list (list Item)) :
  fold_left (fun x batch => x ++ [batch]) bs acc = acc ++ bs.
Proof.
  revert acc. induction bs as [| b bs IH]; intros acc; simpl.
  - rewrite app_nil_r. reflexivity.
  - rewrite IH, <- app_assoc. reflexivity.
Qed.

(** C1: with a positive starting batch size and a positive number of
    workers, [execute] followed by [shutdown] with a handler that never
    raises ends without an exception, whatever the workers interleave.
    The batches formed partition the items in source order, each but the
    last of full size; the handler has been invoked on each of them once
    and on nothing else (the workers may take them in another order), and
    its state is the one these invocations leave; the progress tracker
    stands at the number of items.  With size 4 and 10 items the batches
    have sizes 4, 4, 2 and the tracker stands at 10. *)
Theorem execute_with_succeeding_handler
    (B W : Z) (retry : Exn -> bool) (exp : bool) (h0 : H)
    (sched : list Turn) items work_handler (total : option Z) :
  0 < B -> 0 < W -> always_succeeds work_handler ->
  let r1 :=
    execute items work_handler total (__init__ B W retry exp h0 sched) in
  let r2 := shutdown (fst r1) in
  let batches := fixed_size_batches B [] items in
  snd r1 = None /\ snd r2 = None /\
  Permutation (calls (fst r2)) batches /\
  concat batches = items /\
  Forall (fun b => 1 <= len b <= B) batches /\
  Forall (fun b => len b = B) (removelast batches) /\
  hstate (fst r2) = replay work_handler h0 (calls (fst r2)) /\
  pending (fst r2) = [] /\
  processed (fst r2) = len items /\
  batch_size (fst r2) = B /\
  (B = 4 -> length items = 10%nat ->
   map (@length Item) batches = [4; 4; 2]%nat /\
   Permutation (map (@length Item) (calls (fst r2))) [4; 4; 2]%nat /\
   processed (fst r2) = 10).
Proof.
  intros HB HW Hh r1 r2 batches.
  assert (Hnil : len ([] : list Item) = 0) by reflexivity.
  assert (H0 : undisturbed B work_handler h0 []
                 (progress_start total
                    (@__init__ Item Exn H B W retry exp h0 sched))).
  { unfold undisturbed, backlog, awaiting_call. simpl.
    split; [reflexivity |]. split; [reflexivity |].
    split; [constructor |]. split; [constructor |].
    split; reflexivity. }
  destruct (iterator_steady (list (list Item))
              (undisturbed B work_handler h0) work_handler
              (fun x batch => x ++ [batch])
              (fun x i w HI _ => undisturbed_step B _ h0 x i w Hh HI)
              (fun x s w HI => HI)
              (fun x batch w => undisturbed_enqueue B _ h0 x batch w)
              B
              (fun x w HI => proj1 (proj2 HI))
              (fun x w HI => proj1 HI)
              items [] [] _ H0)
    as (Hout1 & HI1).
  change (dynamic_batch_iterator_from items batch_size
            (submit work_handler) [] B
            (progress_start total (__init__ B W retry exp h0 sched)))
    with r1 in Hout1, HI1.
  rewrite fold_push_batches in HI1. simpl in HI1. fold batches in HI1.
  destruct (shutdown_keeps (list (list Item))
              (undisturbed B work_handler h0)
              (fun x i w HI _ => undisturbed_step B _ h0 x i w Hh HI)
              (fun x s w HI => HI) batches (fst r1) HI1)
    as (w' & (Hte & Hbs & _ & Hperm & HM & Hhs) & Hpend & Hsh).
  fold r2 in Hsh. rewrite Hte in Hsh.
  unfold backlog in HM. unfold awaiting_call in Hperm.
  rewrite Hpend in HM, Hperm. simpl in HM, Hperm.
  rewrite Hnil in HM. rewrite app_nil_r in Hperm.
  assert (Hc : concat batches = items)
    by apply fixed_size_batches_concat.
  assert (H00 : len ([] : list Item) < B) by (rewrite Hnil; lia).
  rewrite Hc in HM.
  rewrite Hsh. simpl.
  split; [exact Hout1 |]. split; [reflexivity |].
  split; [exact Hperm |]. split; [exact Hc |].
  split; [apply fixed_size_batches_bounds; assumption |].
  split; [apply fixed_size_batches_full; assumption |].
  split; [exact Hhs |]. split; [exact Hpend |].
  split; [lia |]. split; [exact Hbs |].
  intros HB4 Hl.
  assert (Hsizes : map (@length Item) batches = [4; 4; 2]%nat).
  { subst batches. rewrite HB4.
    apply fixed_size_batches_4_of_10. exact Hl. }
  split; [exact Hsizes |].
  split; [rewrite <- Hsizes; apply Permutation_map, Hperm |].
  unfold len in HM. rewrite Hl in HM. lia.
Qed.

End WithTypes.

(** ** The claims at concrete inputs *)

Lemma execute_with_succeeding_handler_witness :
  0 < 4 /\ 0 < 2 /\ always_succeeds succeed /\
  calls (fst (shutdown (fst (execute [1; 2; 3; 4; 5; 6; 7; 8; 9; 10]
                               succeed None (exponential_executor 4)))))
  = [[5; 6; 7; 8]; [1; 2; 3; 4]; [9; 10]] /\
  Permutation
    (calls (fst (shutdown (fst (execute [1; 2; 3; 4; 5; 6; 7; 8; 9; 10]
                                  succeed None (exponential_executor 4))))))
    [[1; 2; 3; 4]; [5; 6; 7; 8]; [9; 10]] /\
  hstate (fst (shutdown (fst (execute [1; 2; 3; 4; 5; 6; 7; 8; 9; 10]
                                succeed None (exponential_executor 4)))))
  = 3%nat /\
  processed (fst (shutdown (fst (execute [1; 2; 3; 4; 5; 6; 7; 8; 9; 10]
                                   succeed None
                                   (exponential_executor 4)))))
  = 10.
Proof.
  assert (H4 : 0 < 4) by lia.
  assert (H2 : 0 < 2) by lia.
  assert (Hs : always_succeeds succeed) by (intros h batch; reflexivity).
  split; [exact H4 |]. split; [exact H2 |]. split; [exact Hs |].
  split; [reflexivity |].
  destruct (execute_with_succeeding_handler 4 2 RETRY_EXCEPTIONS true O
              younger_first [1; 2; 3; 4; 5; 6; 7; 8; 9; 10] succeed None
              H4 H2 Hs)
    as (_ & _ & Hperm & _ & _ & _ & Hhs & _ & Hpr & _).
  split; [exact Hperm |]. split; [exact Hhs | exact Hpr].
Defined.

(** C2 as stated fails: the handler raises [ConnectionError] on the batch
    [1; 2; 3] and [ValueError] on the singleton of 2.  [ValueError] leaves
    the processing unit, and the progress tracker still stands at 0, not
    at 3. *)
Lemma progress_not_tracked_before_propagation :
  snd (poison 2 ValueError (hstate (exponential_executor 3)) [1; 2; 3])
  = Some ConnectionError /\
  retry_exceptions (exponential_executor 3) ConnectionError = true /\
  calls (fst (_fail_safe_execute (poison 2 ValueError) [1; 2; 3]
                (exponential_executor 3)))
  = [[1; 2; 3]; [1]; [2]] /\
  snd (_fail_safe_execute (poison 2 ValueError) [1; 2; 3]
         (exponential_executor 3))
  = Some ValueError /\
  processed (fst (_fail_safe_execute (poison 2 ValueError) [1; 2; 3]
                    (exponential_executor 3)))
  = 0 /\
  processed (fst (_fail_safe_execute (poison 2 ValueError) [1; 2; 3]
                    (exponential_executor 3)))
  <> processed (exponential_executor 3) + len [1; 2; 3].
Proof.
  repeat split; try reflexivity. vm_compute. discriminate.
Qed.

Lemma progress_tracked_only_after_settled_pass_witness :
  poison 2 ValueError (hstate (exponential_executor 3)) [1; 2; 3]
  = (1%nat, Some ConnectionError) /\
  retry_exceptions (exponential_executor 3) ConnectionError = true /\
  snd (_fail_safe_execute (poison 2 ValueError) [1; 2; 3]
         (exponential_executor 3))
  = Some ValueError /\
  processed (fst (_fail_safe_execute (poison 2 ValueError) [1; 2; 3]
                    (exponential_executor 3)))
  = processed (exponential_executor 3).
Proof.
  split; [reflexivity |]. split; [reflexivity |].
  apply (progress_tracked_only_after_settled_pass
           (poison 2 ValueError) [1; 2; 3] (exponential_executor 3)
           1%nat ConnectionError eq_refl eq_refl).
  reflexivity.
Defined.

Lemma per_item_retry_is_unprotected_witness :
  poison 3 HTTPError (hstate (exponential_executor 4)) [1; 2; 3; 4]
  = (1%nat, Some ConnectionError) /\
  retry_exceptions (exponential_executor 4) ConnectionError = true /\
  retry_exceptions (exponential_executor 4) HTTPError = true /\
  snd (_fail_safe_execute (poison 3 HTTPError) [1; 2; 3; 4]
         (exponential_executor 4))
  = Some HTTPError /\
  calls (fst (_fail_safe_execute (poison 3 HTTPError) [1; 2; 3; 4]
                (exponential_executor 4)))
  = [[1; 2; 3; 4]; [1]; [2]; [3]] /\
  size_writes (fst (_fail_safe_execute (poison 3 HTTPError) [1; 2; 3; 4]
                      (exponential_executor 4)))
  = [2].
Proof.
  split; [reflexivity |]. split; [reflexivity |]. split; [reflexivity |].
  destruct (per_item_retry_is_unprotected
              (poison 3 HTTPError) [1; 2; 3; 4] (exponential_executor 4)
              1%nat ConnectionError eq_refl eq_refl) as [_ Hfail].
  destruct (Hfail [1; 2] 3 [4] 3%nat 4%nat HTTPError
              eq_refl eq_refl eq_refl)
    as (Hout & Hcalls & _ & Hsw & _).
  split; [exact Hout |]. split; [exact Hcalls |]. exact Hsw.
Defined.

Lemma unrecognized_error_propagates_witness :
  fatal (hstate (exponential_executor 4)) [1; 2; 3; 4]
  = (1%nat, Some ValueError) /\
  retry_exceptions (exponential_executor 4) ValueError = false /\
  snd (_fail_safe_execute fatal [1; 2; 3; 4] (exponential_executor 4))
  = Some ValueError /\
  batch_size (fst (_fail_safe_execute fatal [1; 2; 3; 4]
                     (exponential_executor 4)))
  = 4 /\
  calls (fst (_fail_safe_execute fatal [1; 2; 3; 4]
                (exponential_executor 4)))
  = [[1; 2; 3; 4]] /\
  processed (fst (_fail_safe_execute fatal [1; 2; 3; 4]
                    (exponential_executor 4)))
  = 0.
Proof.
  split; [reflexivity |]. split; [reflexivity |].
  destruct (unrecognized_error_propagates
              fatal [1; 2; 3; 4] (exponential_executor 4)
              1%nat ValueError eq_refl eq_refl)
    as (Hout & Hbs & _ & Hcalls & Hpr).
  split; [exact Hout |]. split; [exact Hbs |].
  split; [exact Hcalls | exact Hpr].
Defined.

(** C6 as stated fails with two workers: the first unit reads the size 4
    and is overtaken by two others, which write 2 and then 1; its own
    write of [int(4 / 2)] then raises the field from 1 to 2. *)
Lemma batch_size_grows_under_race :
  0 < 4 /\
  rev (size_writes
         (fst (shutdown
                 (fst (execute [1; 2; 3; 4; 5; 6; 7; 8; 9; 10]
                         singles_only None (racing_executor 4))))))
  = [2; 1; 2] /\
  batch_size
    (fst (shutdown
            (fst (execute [1; 2; 3; 4; 5; 6; 7; 8; 9; 10]
                    singles_only None (racing_executor 4)))))
  = 2 /\
  ~ size_history_ok 4
      (fst (shutdown
              (fst (execute [1; 2; 3; 4; 5; 6; 7; 8; 9; 10]
                      singles_only None (racing_executor 4))))).
Proof.
  split; [lia |]. split; [reflexivity |]. split; [reflexivity |].
  intros (_ & Hs & _).
  change (StronglySorted Z.lt [2; 1; 2; 4]) in Hs.
  apply StronglySorted_inv in Hs as (_ & Hall).
  apply Forall_cons in Hall as (Hlt & _). lia.
Qed.

Lemma batch_size_stays_in_range_witness :
  0 < 4 /\
  1 <= batch_size
         (fst (shutdown
                 (fst (execute [1; 2; 3; 4; 5; 6; 7; 8; 9; 10]
                         singles_only None (racing_executor 4))))) <= 4 /\
  Forall (fun v => 1 <= v < 4)
    (size_writes
       (fst (shutdown
               (fst (execute [1; 2; 3; 4; 5; 6; 7; 8; 9; 10]
                       singles_only None (racing_executor 4)))))).
Proof.
  assert (H4 : 0 < 4) by lia.
  split; [exact H4 |].
  destruct (batch_size_stays_in_range 4 2 RETRY_EXCEPTIONS true O
              stale_write [1; 2; 3; 4; 5; 6; 7; 8; 9; 10] singles_only
              None H4) as (_ & Hb & Hw & _).
  split; [exact Hb | exact Hw].
Defined.

Lemma per_item_pass_stops_at_first_failure_witness :
  poison 2 ValueError (hstate (exponential_executor 4)) [1; 2; 3; 4]
  = (1%nat, Some ConnectionError) /\
  retry_exceptions (exponential_executor 4) ConnectionError = true /\
  [1; 2; 3; 4] = [1] ++ 2 :: [3; 4] /\
  singleton_pass (poison 2 ValueError) [1] 1%nat
  = (2%nat, length [1], None) /\
  poison 2 ValueError 2%nat [2] = (3%nat, Some ValueError) /\
  calls (fst (_fail_safe_execute (poison 2 ValueError) [1; 2; 3; 4]
                (exponential_executor 4)))
  = [[1; 2; 3; 4]; [1]; [2]] /\
  hstate (fst (_fail_safe_execute (poison 2 ValueError) [1; 2; 3; 4]
                 (exponential_executor 4)))
  = 3%nat.
Proof.
  do 5 (split; [reflexivity |]).
  destruct (per_item_pass_stops_at_first_failure
              (poison 2 ValueError) [1; 2; 3; 4] (exponential_executor 4)
              1%nat ConnectionError [1] 2 [3; 4] 2%nat 3%nat ValueError
              eq_refl eq_refl eq_refl eq_refl eq_refl)
    as (Hcalls & _ & Hhs).
  split; [exact Hcalls | exact Hhs].
Defined.

(** What lines 64-70 do for sizes that a double holds exactly: the size
    is written exactly when it equals the length of the batch and exceeds
    1, to half of it rounded down or to one less, and never to less than
    1. *)
Lemma reduce_batch_size_below_2_53 {Item Exn H : Type}
    (batch_len : Z) (w : @World Item Exn H) :
  1 <= batch_size w < 2 ^ 53 ->
  let w' := reduce_batch_size batch_len w in
  (batch_size w' <> batch_size w <->
   batch_size w = batch_len /\ 1 < batch_size w) /\
  (batch_size w = batch_len -> 1 < batch_size w ->
   batch_size w'
   = if exponential_backoff w then batch_size w / 2
     else batch_size w - 1) /\
  1 <= batch_size w'.
Proof.
  intros Hb. cbv zeta.
  pose proof (reduce_batch_size_write batch_len w) as Hw. cbv zeta in Hw.
  destruct Hw as [(Heq & Hgt & _ & Hlt) | (Hno & Hsame)].
  - split; [split; [tauto | lia] |]. split; [| lia].
    intros _ _. unfold reduce_batch_size.
    rewrite Heq, Z.eqb_refl. rewrite <- Heq.
    destruct (Z.ltb_spec 1 (batch_size w)); [| lia]. simpl.
    destruct (exponential_backoff w); simpl; [| reflexivity].
    apply PyNumFacts.int_truediv_2_exact. lia.
  - rewrite Hsame. split; [split; [congruence | tauto] |].
    split; [tauto | lia].
Qed.

(** C3 at the failing input: in exponential mode, after a recognized
    error on a full batch of 18014398509481990 items, lines 66-68 leave
    the batch size at 9007199254740996, while half of the old size is
    9007199254740995, exactly. *)
Theorem shrink_is_not_half_beyond_2_53 :
  batch_size (reduce_batch_size 18014398509481990
                (exponential_executor 18014398509481990))
  = 9007199254740996 /\
  18014398509481990 = 2 * 9007199254740995 /\
  batch_size (reduce_batch_size 18014398509481990
                (exponential_executor 18014398509481990))
  <> 18014398509481990 / 2.
Proof. vm_compute. repeat split; try reflexivity. discriminate. Qed.

(** C7 at the failing input: in exponential mode the shrink of the size
    18014398509481986 writes 9007199254740992, while half of that size
    is 9007199254740993, exactly. *)
Theorem exponential_shrink_is_float_division :
  batch_size (reduce_batch_size 18014398509481986
                (exponential_executor 18014398509481986))
  = 9007199254740992 /\
  18014398509481986 = 2 * 9007199254740993 /\
  18014398509481986 / 2 = 9007199254740993 /\
  PyNum.int_truediv_2 18014398509481986 <> 18014398509481986 / 2.
Proof. vm_compute. repeat split; try reflexivity. discriminate. Qed.

End ExecutorFacts.

Module ActionMapperFacts.
Import ActionMapper.
Local Open Scope string_scope.

Section WithValues.

Context {Value : Type}.
Variable str : string -> Value.
Implicit Types (heap : @Heap Value) (action transaction_dict obj : nat).
Implicit Types (result : gmap string Value).

Lemma getitem_Some (d : gmap string Value) key v :
  d !! key = Some v -> getitem d key = inr v.
Proof. unfold getitem. intros ->. reflexivity. Qed.

Lemma getitem_None (d : gmap string Value) key :
  d !! key = None -> getitem d key = inl key.
Proof. unfold getitem. intros ->. reflexivity. Qed.

(** The dictionary display succeeds exactly when the six keys it indexes
    with are present. *)
Lemma build_result_present (action transaction_dict : gmap string Value) :
  required_present action transaction_dict ->
  exists th bh ac na au da,
    transaction_dict !! "trx.hash" = Some th /\
    transaction_dict !! "block_hash" = Some bh /\
    action !! "account" = Some ac /\ action !! "name" = Some na /\
    action !! "authorization" = Some au /\ action !! "data" = Some da /\
    build_result str action transaction_dict
    = inr (<["hex_data" := default (str "NULL") (action !! "hex_data")]>
           (<["data" := da]>
            (<["authorization" := au]>
             (<["name" := na]>
              (<["account" := ac]>
               (<["block_hash" := bh]>
                (<["transaction_hash" := th]>
                 (<["type" := str "action"]> ∅)))))))).
Proof.
  intros ([th Hth] & [bh Hbh] & [ac Hac] & [na Hna] & [au Hau] & [da Hda]).
  exists th, bh, ac, na, au, da. repeat (split; [assumption |]).
  unfold build_result.
  rewrite (getitem_Some _ _ _ Hth), (getitem_Some _ _ _ Hbh),
    (getitem_Some _ _ _ Hac), (getitem_Some _ _ _ Hna),
    (getitem_Some _ _ _ Hau), (getitem_Some _ _ _ Hda).
  destruct (action !! "hex_data"); reflexivity.
Qed.

Lemma build_result_absent (action transaction_dict : gmap string Value) :
  ~ required_present action transaction_dict ->
  exists key, build_result str action transaction_dict = inl key.
Proof.
  intros Hno. unfold build_result, getitem.
  destruct (transaction_dict !! "trx.hash") eqn:Hth; [| eauto].
  destruct (transaction_dict !! "block_hash") eqn:Hbh; [| eauto].
  destruct (action !! "account") eqn:Hac; [| eauto].
  destruct (action !! "name") eqn:Hna; [| eauto].
  destruct (action !! "authorization") eqn:Hau; [| eauto].
  destruct (action !! "data") eqn:Hda; [| eauto].
  exfalso. apply Hno. unfold required_present.
  rewrite Hth, Hbh, Hac, Hna, Hau, Hda. repeat split; eauto.
Qed.

(** The pops change the object [action] and no other object. *)
Lemma pop_at key obj heap :
  pop key obj heap obj = delete key (heap obj).
Proof. unfold pop. apply fn_lookup_insert. Qed.

Lemma pop_other key obj heap obj' :
  obj' <> obj -> pop key obj heap obj' = heap obj'.
Proof. intros Hne. unfold pop. apply fn_lookup_insert_ne. congruence. Qed.

Lemma pop_fields_at action heap :
  pop_fields action heap action
  = delete "hex_data"
      (delete "data"
        (delete "authorization"
          (delete "name"
            (delete "account" (heap action))))).
Proof. unfold pop_fields. rewrite !pop_at. reflexivity. Qed.

Lemma pop_fields_other action heap obj :
  obj <> action -> pop_fields action heap obj = heap obj.
Proof.
  intros Hne. unfold pop_fields. rewrite !pop_other by exact Hne.
  reflexivity.
Qed.

Lemma pop_fields_lookup action heap key :
  pop_fields action heap action !! key
  = if decide (key ∈ popped_keys) then None else heap action !! key.
Proof.
  rewrite pop_fields_at. unfold popped_keys.
  case_decide as Hin.
  - repeat (apply elem_of_cons in Hin as [-> | Hin]);
      [.. | by apply elem_of_nil in Hin];
      rewrite ?lookup_delete_eq;
      repeat (rewrite lookup_delete_ne by done; rewrite ?lookup_delete_eq);
      reflexivity.
  - rewrite !lookup_delete_ne; [reflexivity | ..];
      intros <-; apply Hin; set_solver.
Qed.

(** C9 (amended): when [action_to_dict] returns, the keys ['account'],
    ['name'], ['authorization'], ['data'] and ['hex_data'] are no longer
    in the [action] dictionary (whether or not ['hex_data'] was) and its
    other keys are as before; every other object is as before, and so is
    [transaction_dict] when it is not the object passed as [action].  When
    it is that object, it has lost the five keys too, and is not as
    before. *)
Theorem action_to_dict_pops_action
    heap action transaction_dict result :
  ended (action_to_dict str heap action transaction_dict) = Return result ->
  (forall key, key ∈ popped_keys ->
     heap_after (action_to_dict str heap action transaction_dict) action
       !! key = None) /\
  (forall key, key ∉ popped_keys ->
     heap_after (action_to_dict str heap action transaction_dict) action
       !! key = heap action !! key) /\
  (forall obj, obj <> action ->
     heap_after (action_to_dict str heap action transaction_dict) obj
     = heap obj) /\
  (transaction_dict <> action ->
   heap_after (action_to_dict str heap action transaction_dict)
     transaction_dict
   = heap transaction_dict) /\
  (transaction_dict = action ->
   (forall key, key ∈ popped_keys ->
      heap_after (action_to_dict str heap action transaction_dict)
        transaction_dict !! key = None) /\
   heap_after (action_to_dict str heap action transaction_dict)
     transaction_dict
   <> heap transaction_dict).
Proof.
  unfold action_to_dict.
  destruct (build_result str (heap action) (heap transaction_dict))
    as [key | res] eqn:Hb; simpl; [discriminate |].
  intros _.
  assert (Hpop : forall key, key ∈ popped_keys ->
            pop_fields action heap action !! key = None).
  { intros key Hin. rewrite pop_fields_lookup. by rewrite decide_True. }
  split; [exact Hpop |]. split; [| split; [| split]].
  - intros key Hout. rewrite pop_fields_lookup. by rewrite decide_False.
  - intros obj Hne. apply pop_fields_other, Hne.
  - intros Hne. apply pop_fields_other, Hne.
  - intros ->. split; [exact Hpop |].
    intros Heq.
    assert (Hacc : pop_fields action heap action !! "account" = None)
      by (apply Hpop; unfold popped_keys; repeat constructor).
    rewrite Heq in Hacc.
    unfold build_result, getitem in Hb. rewrite Hacc in Hb.
    destruct (heap action !! "trx.hash"); [| discriminate Hb].
    destruct (heap action !! "block_hash"); discriminate Hb.
Qed.

(** C10: when the action has ['account'], ['name'], ['authorization'] and
    ['data'] and the transaction dictionary has ['trx.hash'] and
    ['block_hash'], [action_to_dict] returns a dictionary with exactly the
    eight keys [type], [transaction_hash], [block_hash], [account],
    [name], [authorization], [data], [hex_data]; [type] is ['action'],
    [hex_data] is the action's ['hex_data'] if it has one and ['NULL']
    otherwise, and the other values are those looked up.  When one of the
    six keys is absent the call raises [KeyError].  The two arguments may
    be the same object. *)
Theorem action_to_dict_result heap action transaction_dict :
  (required_present (heap action) (heap transaction_dict) ->
   exists result,
     ended (action_to_dict str heap action transaction_dict)
     = Return result /\
     dom result = result_keys /\
     size result = 8%nat /\
     result !! "type" = Some (str "action") /\
     result !! "transaction_hash" = heap transaction_dict !! "trx.hash" /\
     result !! "block_hash" = heap transaction_dict !! "block_hash" /\
     result !! "account" = heap action !! "account" /\
     result !! "name" = heap action !! "name" /\
     result !! "authorization" = heap action !! "authorization" /\
     result !! "data" = heap action !! "data" /\
     result !! "hex_data"
     = Some (default (str "NULL") (heap action !! "hex_data"))) /\
  (~ required_present (heap action) (heap transaction_dict) ->
   exists key,
     ended (action_to_dict str heap action transaction_dict)
     = KeyError key).
Proof.
  split.
  - intros Hp.
    destruct (build_result_present _ _ Hp)
      as (th & bh & ac & na & au & da &
          Hth & Hbh & Hac & Hna & Hau & Hda & Hb).
    unfold action_to_dict. rewrite Hb. simpl.
    eexists. split; [reflexivity |].
    rewrite Hth, Hbh, Hac, Hna, Hau, Hda.
    split; [| split].
    + rewrite !dom_insert_L, dom_empty_L. unfold result_keys. set_solver.
    + rewrite !map_size_insert_None; rewrite ?map_size_empty;
        simplify_map_eq; reflexivity.
    + by simplify_map_eq.
  - intros Hno.
    destruct (build_result_absent _ _ Hno) as [key Hb].
    exists key. unfold action_to_dict. rewrite Hb. reflexivity.
Qed.

End WithValues.

(** ** The claims at concrete inputs *)

(** C9 as stated fails when one dictionary is passed for both arguments:
    the call returns, and the transaction dictionary has lost
    ['account']. *)
Lemma transaction_dict_changes_when_aliased :
  ended (action_to_dict id flat_heap 0 0) = Return transfer_result /\
  flat_heap 0%nat !! "account" = Some "eosio.token" /\
  heap_after (action_to_dict id flat_heap 0 0) 0%nat !! "account" = None /\
  heap_after (action_to_dict id flat_heap 0 0) 0%nat <> flat_heap 0%nat.
Proof.
  split; [vm_compute; reflexivity |].
  split; [vm_compute; reflexivity |].
  split; [vm_compute; reflexivity |].
  intros Heq. apply (f_equal (fun d => d !! "account")) in Heq.
  vm_compute in Heq. discriminate Heq.
Qed.

Lemma action_to_dict_pops_action_witness :
  ended (action_to_dict id transfer_heap 0 1) = Return transfer_result /\
  heap_after (action_to_dict id transfer_heap 0 1) 0%nat !! "name"
  = None /\
  heap_after (action_to_dict id transfer_heap 0 1) 0%nat !! "hex_data"
  = None /\
  heap_after (action_to_dict id transfer_heap 0 1) 0%nat !! "receipt"
  = Some "r1" /\
  heap_after (action_to_dict id transfer_heap 0 1) 1%nat
  = transfer_transaction.
Proof.
  assert (Hret : ended (action_to_dict id transfer_heap 0 1)
                 = Return transfer_result)
    by (vm_compute; reflexivity).
  split; [exact Hret |].
  destruct (action_to_dict_pops_action id transfer_heap 0 1
              transfer_result Hret)
    as (Hpop & Hkeep & _ & Htx & _).
  split; [apply Hpop; unfold popped_keys; repeat constructor |].
  split; [apply Hpop; unfold popped_keys; repeat constructor |].
  split; [| apply Htx; discriminate].
  rewrite Hkeep; [reflexivity |].
  unfold popped_keys. intros Hin.
  repeat (apply elem_of_cons in Hin as [Heq | Hin]; [discriminate Heq |]).
  apply elem_of_nil in Hin. exact Hin.
Defined.

Lemma action_to_dict_result_witness :
  required_present (transfer_heap 0%nat) (transfer_heap 1%nat) /\
  (exists result,
     ended (action_to_dict id transfer_heap 0 1) = Return result /\
     dom result = result_keys /\
     result !! "type" = Some "action" /\
     result !! "hex_data" = Some "NULL") /\
  ~ required_present (heap_of nameless_action transfer_transaction 0%nat)
      (heap_of nameless_action transfer_transaction 1%nat) /\
  (exists key,
     ended (action_to_dict id
              (heap_of nameless_action transfer_transaction) 0 1)
     = KeyError key).
Proof.
  assert (Hp : required_present (transfer_heap 0%nat) (transfer_heap 1%nat))
    by (unfold required_present; repeat split; eexists; reflexivity).
  assert (Hn : ~ required_present
                 (heap_of nameless_action transfer_transaction 0%nat)
                 (heap_of nameless_action transfer_transaction 1%nat)).
  { intros (_ & _ & _ & [v Hv] & _). vm_compute in Hv. discriminate Hv. }
  split; [exact Hp |].
  destruct (action_to_dict_result id transfer_heap 0 1) as [Hok _].
  destruct (Hok Hp) as (result & Hret & Hdom & _ & Hty & _ & _ & _ & _ &
                        _ & _ & Hhex).
  split; [exists result; repeat split; assumption |].
  split; [exact Hn |].
  destruct (action_to_dict_result id
              (heap_of nameless_action transfer_transaction) 0 1)
    as [_ Hbad].
  exact (Hbad Hn).
Defined.

End ActionMapperFacts.

(* ===================================================================== *)
(** * Further properties of the executor                                  *)
(* ===================================================================== *)

Module ExecutorMoreFacts.
Import Executor ExecutorFacts.

Section WithTypes.

Context {Item Exn H : Type}.
Implicit Types (w : @World Item Exn H) (batch items : list Item).
Implicit Types (work_handler : @Handler Item Exn H).

(** What a processing unit leaves alone: the configuration, the queue, the
    latch and the schedule. *)
Lemma fail_safe_execute_frame work_handler batch w :
  let w' := fst (_fail_safe_execute work_handler batch w) in
  exponential_backoff w' = exponential_backoff w /\
  retry_exceptions w' = retry_exceptions w /\
  max_workers w' = max_workers w /\
  pending w' = pending w /\
  terminal_error w' = terminal_error w /\
  schedule w' = schedule w /\
  total_items w' = total_items w /\
  finished w' = finished w.
Proof.
  cbv zeta.
  destruct (work_handler (hstate w) batch) as [h1 [e |]] eqn:Hh.
  - destruct (retry_exceptions w e) eqn:Hre.
    + rewrite (fail_safe_execute_transient _ _ _ _ _ Hh Hre). cbv zeta.
      rewrite retry_items_view.
      match goal with
      | |- context [reduce_batch_size ?n ?w0] =>
          pose proof (reduce_batch_size_frame n w0) as Hf;
          cbv zeta in Hf;
          assert (Hx : schedule (reduce_batch_size n w0) = schedule w0
                       /\ total_items (reduce_batch_size n w0)
                          = total_items w0
                       /\ finished (reduce_batch_size n w0) = finished w0)
            by (unfold reduce_batch_size;
                destruct (_ && _);
                [destruct (exponential_backoff w0) |]; simpl;
                repeat split; reflexivity);
          set (w4 := reduce_batch_size n w0) in *
      end.
      destruct Hf as (_ & _ & _ & _ & Hp & Ht & Hr & He & Hm).
      destruct Hx as (Hs & Hti & Hfi).
      simpl in Hp, Ht, Hr, He, Hm, Hs, Hti, Hfi.
      destruct (snd (singleton_pass work_handler batch (hstate w4)));
        simpl; rewrite Hp, Ht, Hr, He, Hm, Hs, Hti, Hfi;
        repeat split; reflexivity.
    + rewrite (fail_safe_execute_fatal _ _ _ _ _ Hh Hre). simpl.
      repeat split; reflexivity.
  - rewrite (fail_safe_execute_success _ _ _ _ Hh). simpl.
    repeat split; reflexivity.
Qed.

(** X1: when the handler returns on the batch, the processing unit returns
    too: the handler was invoked once, on the whole batch, the progress
    tracker is advanced by the length of the batch, and neither the batch
    size nor the counter has changed. *)
Theorem success_is_tracked_once work_handler batch w h1 :
  work_handler (hstate w) batch = (h1, None) ->
  let r := _fail_safe_execute work_handler batch w in
  snd r = None /\
  calls (fst r) = calls w ++ [batch] /\
  hstate (fst r) = h1 /\
  processed (fst r) = processed w + len batch /\
  batch_size (fst r) = batch_size w /\
  size_writes (fst r) = size_writes w /\
  counter (fst r) = counter w.
Proof.
  intros Hh r. subst r.
  rewrite (fail_safe_execute_success _ _ _ _ Hh). simpl.
  repeat split; try reflexivity. lia.
Qed.

(** X2: the counter of running units is back at its old value when the
    unit ends, unless the handler raised an exception outside
    [retry_exceptions] on the batch: then line 59 and line 61 are both
    skipped and the counter stays one higher. *)
Theorem counter_leaks_on_unrecognized_error work_handler batch w :
  counter (fst (_fail_safe_execute work_handler batch w))
  = match snd (work_handler (hstate w) batch) with
    | Some e => if retry_exceptions w e then counter w else counter w + 1
    | None => counter w
    end.
Proof.
  destruct (work_handler (hstate w) batch) as [h1 [e |]] eqn:Hh; simpl.
  - destruct (retry_exceptions w e) eqn:Hre.
    + rewrite (fail_safe_execute_transient _ _ _ _ _ Hh Hre). cbv zeta.
      rewrite retry_items_view.
      match goal with
      | |- context [reduce_batch_size ?n ?w0] =>
          pose proof (reduce_batch_size_frame n w0) as Hf;
          cbv zeta in Hf;
          set (w4 := reduce_batch_size n w0) in *
      end.
      destruct Hf as (_ & _ & _ & Hc & _). simpl in Hc.
      destruct (snd (singleton_pass work_handler batch (hstate w4)));
        simpl; rewrite Hc; lia.
    + rewrite (fail_safe_execute_fatal _ _ _ _ _ Hh Hre). reflexivity.
  - rewrite (fail_safe_execute_success _ _ _ _ Hh). simpl. lia.
Qed.

(** X4: a recognized error on a batch of one item never changes the batch
    size, whatever it is; the same singleton is handed to the handler a
    second time, and the outcome of that second invocation is the outcome
    of the unit. *)
Theorem singleton_batch_is_retried_once work_handler item w h1 e :
  work_handler (hstate w) [item] = (h1, Some e) ->
  retry_exceptions w e = true ->
  let r := _fail_safe_execute work_handler [item] w in
  batch_size (fst r) = batch_size w /\
  size_writes (fst r) = size_writes w /\
  calls (fst r) = calls w ++ [[item]; [item]] /\
  snd r = snd (work_handler h1 [item]) /\
  hstate (fst r) = fst (work_handler h1 [item]).
Proof.
  intros Hh Hre r.
  destruct (fail_safe_execute_retry _ _ _ _ _ Hh Hre)
    as (Hout & Hhs & Hcalls & Hbs & Hsw & _).
  fold r in Hout, Hhs, Hcalls, Hbs, Hsw.
  assert (Hsame : reduce_batch_size (len [item]) w = w).
  { destruct (reduce_batch_size_write (len [item]) w)
      as [(Heq & Hgt & _) | (_ & Hs)]; [| exact Hs].
    unfold len in Heq. simpl in Heq. lia. }
  rewrite Hsame in Hbs, Hsw.
  simpl in Hout, Hhs, Hcalls.
  destruct (work_handler h1 [item]) as [h2 [e' |]]; simpl in *;
    repeat split; assumption.
Qed.

(** X5: a processing unit invokes the handler on the batch and then on the
    singletons of some first items of the batch: at least once and at most
    [len(batch) + 1] times, and once only unless the invocation on the
    batch raised a recognized error. *)
Theorem unit_invocations_are_bounded work_handler batch w :
  let r := _fail_safe_execute work_handler batch w in
  exists k : nat,
    (k <= length batch)%nat /\
    calls (fst r) = calls w ++ batch :: map singleton (firstn k batch) /\
    ((forall e, snd (work_handler (hstate w) batch) = Some e ->
                retry_exceptions w e = false) -> k = O).
Proof.
  intros r. subst r.
  destruct (work_handler (hstate w) batch) as [h1 [e |]] eqn:Hh.
  - destruct (retry_exceptions w e) eqn:Hre.
    + destruct (fail_safe_execute_retry _ _ _ _ _ Hh Hre)
        as (_ & _ & Hcalls & _).
      exists (snd (fst (singleton_pass work_handler batch h1))).
      split; [apply singleton_pass_count |].
      split; [exact Hcalls |].
      intros Hno. specialize (Hno e eq_refl). congruence.
    + rewrite (fail_safe_execute_fatal _ _ _ _ _ Hh Hre). simpl.
      exists O. split; [lia |]. split; [reflexivity | intros _; reflexivity].
  - rewrite (fail_safe_execute_success _ _ _ _ Hh). simpl.
    exists O. split; [lia |]. split; [reflexivity | intros _; reflexivity].
Qed.

(** X6: for a batch size below 2^53, a recognized error on the batch
    leaves the size at exactly half of it, rounded down, in exponential
    mode and at one less in linear mode when the size equals the length of
    the batch and exceeds 1, and leaves it as it was otherwise; the
    per-item pass that follows does not touch it. *)
Theorem shrink_is_exact_below_2_53 work_handler batch w h1 e :
  work_handler (hstate w) batch = (h1, Some e) ->
  retry_exceptions w e = true ->
  batch_size w < 2 ^ 53 ->
  batch_size (fst (_fail_safe_execute work_handler batch w))
  = if (batch_size w =? len batch) && (1 <? batch_size w)
    then if exponential_backoff w then batch_size w / 2
         else batch_size w - 1
    else batch_size w.
Proof.
  intros Hh Hre Hlt.
  destruct (fail_safe_execute_retry _ _ _ _ _ Hh Hre)
    as (_ & _ & _ & Hbs & _).
  rewrite Hbs. unfold reduce_batch_size.
  destruct (batch_size w =? len batch); simpl; [| reflexivity].
  destruct (Z.ltb_spec 1 (batch_size w)); [| reflexivity].
  destruct (exponential_backoff w); simpl; [| reflexivity].
  apply PyNumFacts.int_truediv_2_exact. lia.
Qed.

(** X7: the progress tracker moves exactly when the unit returns, and then
    by the length of the batch; a unit that ends in an exception leaves it
    where it was. *)
Theorem progress_moves_iff_unit_returns work_handler batch w :
  processed (fst (_fail_safe_execute work_handler batch w))
  = match snd (_fail_safe_execute work_handler batch w) with
    | None => processed w + len batch
    | Some _ => processed w
    end.
Proof.
  destruct (work_handler (hstate w) batch) as [h1 [e |]] eqn:Hh.
  - destruct (retry_exceptions w e) eqn:Hre.
    + destruct (fail_safe_execute_retry _ _ _ _ _ Hh Hre)
        as (Hout & _ & _ & _ & _ & Hpr).
      rewrite Hout, Hpr. reflexivity.
    + rewrite (fail_safe_execute_fatal _ _ _ _ _ Hh Hre). reflexivity.
  - rewrite (fail_safe_execute_success _ _ _ _ Hh). reflexivity.
Qed.

(** ** The batch size along a run with a single worker *)

(** X8: with a single worker, each write lowers the batch size by at
    least one: the size and the number of writes never add up to more
    than the starting size, so a run that starts at [B] writes the size at
    most [B - 1] times.  In linear mode they add up to exactly [B]. *)
Theorem shrinks_are_counted
    (B : Z) (retry : Exn -> bool) (exp : bool) (h0 : H)
    (sched : list Turn) items work_handler (total : option Z) :
  0 < B ->
  let w2 :=
    fst (shutdown (fst (execute items work_handler total
                          (__init__ B 1 retry exp h0 sched)))) in
  1 <= batch_size w2 /\
  batch_size w2 + Z.of_nat (length (size_writes w2)) <= B /\
  Z.of_nat (length (size_writes w2)) <= B - 1 /\
  (exp = false ->
   batch_size w2 + Z.of_nat (length (size_writes w2)) = B).
Proof.
  intros HB w2.
  set (P := fun w : @World Item Exn H =>
              exponential_backoff w = exp /\
              1 <= batch_size w /\
              batch_size w + Z.of_nat (length (size_writes w)) <= B /\
              (exp = false ->
               batch_size w + Z.of_nat (length (size_writes w)) = B)).
  assert (HP : P w2).
  { apply (single_worker_run P).
    - unfold P. intros w w' Hb Hs He. rewrite Hb, Hs, He. tauto.
    - unfold P. intros n w (He & H1 & Hle & Heq).
      pose proof (reduce_batch_size_frame n w) as Hf. cbv zeta in Hf.
      destruct Hf as (_ & _ & _ & _ & _ & _ & _ & He' & _).
      split; [congruence |].
      destruct (reduce_batch_size_write n w)
        as [(Hn & Hgt & Hsw & Hlt) | (_ & Hsame)].
      + rewrite Hsw. simpl length. split; [lia |]. split; [lia |].
        intros Hlin. specialize (Heq Hlin).
        assert (Hdec : batch_size (reduce_batch_size n w) = batch_size w - 1).
        { unfold reduce_batch_size. rewrite Hn, Z.eqb_refl. rewrite <- Hn.
          destruct (Z.ltb_spec 1 (batch_size w)); [| lia]. simpl.
          rewrite He, Hlin. reflexivity. }
        lia.
      + rewrite Hsame. tauto.
    - apply init_one_at_a_time.
    - unfold P. simpl. repeat split; trivial; lia. }
  destruct HP as (_ & H1 & Hle & Heq).
  repeat split; trivial. lia.
Qed.

(** X9: with a single worker, in exponential mode and with a starting
    size below 2^53, each write at least halves the batch size: after [k]
    writes the size is at most [B / 2^k], so the size is written at most
    [log2 B] times. *)
Theorem exponential_shrinks_are_logarithmic
    (B : Z) (retry : Exn -> bool) (h0 : H)
    (sched : list Turn) items work_handler (total : option Z) :
  0 < B < 2 ^ 53 ->
  let w2 :=
    fst (shutdown (fst (execute items work_handler total
                          (__init__ B 1 retry true h0 sched)))) in
  2 ^ Z.of_nat (length (size_writes w2)) * batch_size w2 <= B /\
  Z.of_nat (length (size_writes w2)) <= Z.log2 B.
Proof.
  intros HB w2.
  set (P := fun w : @World Item Exn H =>
              exponential_backoff w = true /\
              1 <= batch_size w /\
              2 ^ Z.of_nat (length (size_writes w)) * batch_size w <= B).
  assert (HP : P w2).
  { apply (single_worker_run P).
    - unfold P. intros w w' Hb Hs He. rewrite Hb, Hs, He. tauto.
    - unfold P. intros n w (He & H1 & Hle).
      pose proof (reduce_batch_size_frame n w) as Hf. cbv zeta in Hf.
      destruct Hf as (_ & _ & _ & _ & _ & _ & _ & He' & _).
      split; [congruence |].
      assert (Hpow : 0 < 2 ^ Z.of_nat (length (size_writes w)))
        by (apply Z.pow_pos_nonneg; lia).
      destruct (reduce_batch_size_write n w)
        as [(Hn & Hgt & Hsw & Hlt) | (_ & Hsame)].
      + assert (Hhalf : batch_size (reduce_batch_size n w)
                        = batch_size w / 2).
        { unfold reduce_batch_size. rewrite Hn, Z.eqb_refl. rewrite <- Hn.
          destruct (Z.ltb_spec 1 (batch_size w)); [| lia]. simpl.
          rewrite He. simpl.
          apply PyNumFacts.int_truediv_2_exact. nia. }
        rewrite Hsw. simpl length. split; [lia |].
        rewrite Nat2Z.inj_succ, Z.pow_succ_r by lia.
        rewrite Hhalf.
        pose proof (Z.mul_div_le (batch_size w) 2 ltac:(lia)). nia.
      + rewrite Hsame. tauto.
    - apply init_one_at_a_time.
    - unfold P. simpl. repeat split; trivial; lia. }
  destruct HP as (_ & H1 & Hle).
  split; [exact Hle |].
  assert (Hpow : 2 ^ Z.of_nat (length (size_writes w2)) <= B).
  { assert (0 < 2 ^ Z.of_nat (length (size_writes w2)))
      by (apply Z.pow_pos_nonneg; lia).
    nia. }
  apply Z.log2_le_pow2 in Hpow; lia.
Qed.

(** ** Progress along a run *)

Lemma fold_push_len (bs : list (list Item)) (M : Z) :
  fold_left (fun M0 batch => M0 + len batch) bs M = M + len (concat bs).
Proof.
  revert M. induction bs as [| b bs IH]; intros M; simpl.
  - unfold len. simpl. lia.
  - rewrite IH, len_app. lia.
Qed.

Lemma accounted_step p0 M i w :
  accounted p0 M w -> accounted p0 M (step_at i w).
Proof.
  intros (Hp0 & HM).
  destruct (step_at_cases i w)
    as [-> | (l1 & t & l2 & Hpend & _ & Hcase)];
    [split; assumption |].
  unfold backlog in HM. rewrite Hpend in HM.
  rewrite items_in_flight_app, items_in_flight_cons in HM.
  pose proof (len_nonneg (task_batch t)) as Hn.
  pose proof (unit_step_frame t w) as (_ & Hbatch & _).
  assert (Hlatch : forall o w0,
            accounted p0 M w0 -> accounted p0 M (latch o w0)).
  { intros o w0 H0.
    destruct (latch_cases o w0) as [-> | (e & _ & _ & ->)]; exact H0. }
  destruct (unit_step_progress_view t w)
    as [(Hst & Hst' & Hpr) | (Hst & Hpr)].
  - destruct Hcase as [(o & _ & ->) | (Hne & _)].
    + apply Hlatch. unfold accounted, backlog. simpl.
      rewrite items_in_flight_app, Hpr. lia.
    + unfold has_ended in Hne. rewrite Hst' in Hne. discriminate Hne.
  - destruct Hcase as [(o & _ & ->) | (_ & ->)].
    + apply Hlatch. unfold accounted, backlog. simpl.
      rewrite items_in_flight_app, Hpr. lia.
    + unfold accounted, backlog. simpl.
      rewrite items_in_flight_app, items_in_flight_cons, Hbatch, Hpr. lia.
Qed.

Lemma accounted_enqueue p0 M work_handler batch w :
  accounted p0 M w ->
  accounted p0 (M + len batch)
    (set_pending (pending w ++ [mkTask work_handler batch AtCall]) w).
Proof.
  intros (Hp0 & HM). unfold accounted, backlog in *. simpl.
  rewrite items_in_flight_app, items_in_flight_cons. simpl.
  assert (Hnil : len ([] : list Item) = 0) by reflexivity.
  rewrite Hnil. lia.
Qed.

(** X10: whatever the handler does and whatever the pool schedules, the
    progress tracker never runs ahead of the work: after [execute], and
    after [shutdown], it stands between 0 and the number of items, and
    [shutdown] never lowers it. *)
Theorem progress_never_exceeds_items
    (B W : Z) (retry : Exn -> bool) (exp : bool) (h0 : H)
    (sched : list Turn) items work_handler (total : option Z) :
  let w1 :=
    fst (execute items work_handler total
           (__init__ B W retry exp h0 sched)) in
  let w2 := fst (shutdown w1) in
  0 <= processed w1 /\ processed w1 <= processed w2 /\
  processed w2 <= len items.
Proof.
  intros w1 w2.
  assert (H0 : accounted 0 0
                 (progress_start total
                    (@__init__ Item Exn H B W retry exp h0 sched))).
  { unfold accounted, backlog. simpl.
    assert (Hnil : len ([] : list Item) = 0) by reflexivity.
    rewrite Hnil. lia. }
  destruct (iterator_keeps Z (accounted 0) work_handler
              (fun M0 batch => M0 + len batch)
              (fun x i w HI _ => accounted_step 0 x i w HI)
              (fun x s w HI => HI)
              (fun x batch w => accounted_enqueue 0 x work_handler batch w)
              items [] B 0 _ H0)
    as (bs & rest & HI1 & Hcat & _).
  change (dynamic_batch_iterator_from items batch_size
            (submit work_handler) [] B
            (progress_start total (__init__ B W retry exp h0 sched)))
    with (execute items work_handler total
            (__init__ B W retry exp h0 sched)) in HI1.
  fold w1 in HI1. rewrite fold_push_len in HI1. simpl in Hcat.
  assert (HM : len (concat bs) <= len items).
  { rewrite <- Hcat, len_app. pose proof (len_nonneg rest). lia. }
  destruct HI1 as (Hp1 & HM1).
  pose proof (len_nonneg (concat (map task_batch (pending w1)))) as Hb1.
  fold (backlog w1) in Hb1.
  assert (H1 : accounted (processed w1) (len items) w1)
    by (split; lia).
  destruct (shutdown_keeps unit
              (fun _ => accounted (processed w1) (len items))
              (fun x i w HI _ => accounted_step _ _ i w HI)
              (fun x s w HI => HI) tt w1 H1)
    as (w' & (Hp2 & HM2) & Hpend & Hsh).
  assert (Hw2 : processed w2 = processed w').
  { subst w2. rewrite Hsh. destruct (terminal_error w'); reflexivity. }
  pose proof (len_nonneg (concat (map task_batch (pending w')))) as Hb2.
  fold (backlog w') in Hb2.
  rewrite Hw2. lia.
Qed.

(** ** Runs in which every error is recovered item by item *)

(** A unit whose handler recovers moves on without ending, until line 74
    counts its batch. *)
Lemma unit_step_recovers retry (t : @Task Item Exn H) w :
  recovers_singly retry (task_handler t) ->
  retry_exceptions w = retry -> has_ended t = false ->
  (task_stage (fst (unit_step t w)) = Ended None /\
   processed (snd (unit_step t w)) = processed w + len (task_batch t))
  \/
  (has_ended (fst (unit_step t w)) = false /\
   processed (snd (unit_step t w)) = processed w).
Proof.
  intros (Hrec & Hone) Hre Hne. unfold unit_step, has_ended in *.
  destruct (task_stage t) as [| | local | [| item rest] | | o] eqn:Hs;
    try discriminate Hne.
  - right. unfold call_handler. simpl.
    specialize (Hrec (hstate w) (task_batch t)).
    destruct (task_handler t (hstate w) (task_batch t)) as [h' [e |]];
      simpl in *; [| split; reflexivity].
    rewrite Hre, (Hrec e eq_refl). simpl. split; reflexivity.
  - right. simpl. split; reflexivity.
  - right. simpl.
    destruct (write_batch_size_cases local (len (task_batch t)) w)
      as [(_ & _ & v & Hw & _) | (_ & Hw)]; rewrite Hw; simpl;
      split; reflexivity.
  - right. simpl. split; reflexivity.
  - right. unfold call_handler. simpl.
    specialize (Hone (hstate w) item).
    destruct (task_handler t (hstate w) [item]) as [h' [e |]];
      simpl in *; [discriminate Hone | split; reflexivity].
  - left. simpl. split; reflexivity.
Qed.

Lemma recovering_step retry M i w :
  recovering retry M w -> recovering retry M (step_at i w).
Proof.
  intros (Hte & Hre & Hall & HM).
  destruct (step_at_cases i w)
    as [-> | (l1 & t & l2 & Hpend & _ & Hcase)];
    [split; [| split; [| split]]; assumption |].
  unfold backlog in HM. rewrite Hpend in HM, Hall.
  rewrite items_in_flight_app, items_in_flight_cons in HM.
  apply Forall_app in Hall as (Hl1 & Hall).
  apply Forall_cons in Hall as ((Hrec & Hne) & Hl2).
  pose proof (unit_step_frame t w)
    as (Hh' & Hbatch & _ & Hte' & _ & _ & Hre' & _).
  destruct (unit_step_recovers retry t w Hrec Hre Hne)
    as [(Hst' & Hpr) | (Hne' & Hpr)].
  - destruct Hcase as [(o & Ho & ->) | (Hne' & _)].
    + rewrite Hst' in Ho. injection Ho as <-.
      unfold recovering, backlog. simpl.
      rewrite items_in_flight_app, Hpr.
      split; [congruence |]. split; [congruence |].
      split; [apply Forall_app; split; assumption | lia].
    + unfold has_ended in Hne'. rewrite Hst' in Hne'. discriminate Hne'.
  - destruct Hcase as [(o & Ho & _) | (_ & ->)].
    + unfold has_ended in Hne'. rewrite Ho in Hne'. discriminate Hne'.
    + unfold recovering, backlog. simpl.
      rewrite items_in_flight_app, items_in_flight_cons, Hbatch, Hpr.
      split; [congruence |]. split; [congruence |].
      split; [| lia].
      apply Forall_app. split; [exact Hl1 |].
      apply Forall_cons. split; [| exact Hl2].
      split; [rewrite Hh'; exact Hrec | exact Hne'].
Qed.

Lemma recovering_enqueue retry M work_handler batch w :
  recovers_singly retry work_handler ->
  recovering retry M w ->
  recovering retry (M + len batch)
    (set_pending (pending w ++ [mkTask work_handler batch AtCall]) w).
Proof.
  intros Hrec (Hte & Hre & Hall & HM).
  unfold recovering, backlog in *. simpl.
  rewrite items_in_flight_app, items_in_flight_cons. simpl.
  assert (Hnil : len ([] : list Item) = 0) by reflexivity.
  rewrite Hnil.
  split; [exact Hte |]. split; [exact Hre |]. split; [| lia].
  apply Forall_app. split; [exact Hall |].
  constructor; [split; [exact Hrec | reflexivity] | constructor].
Qed.

(** X11: when every exception of the handler is a recognized one and the
    handler never raises on a single item, no error of the handler ends
    the run: for every starting size, backoff mode and schedule,
    [execute] and [shutdown] return, the queue is empty, the report is
    closed, and the progress tracker stands at the number of items. *)
Theorem recovered_errors_never_abort
    (B W : Z) (retry : Exn -> bool) (exp : bool) (h0 : H)
    (sched : list Turn) items work_handler (total : option Z) :
  recovers_singly retry work_handler ->
  let r1 :=
    execute items work_handler total (__init__ B W retry exp h0 sched) in
  let r2 := shutdown (fst r1) in
  snd r1 = None /\ snd r2 = None /\
  terminal_error (fst r2) = None /\
  pending (fst r2) = [] /\
  finished (fst r2) = true /\
  processed (fst r2) = len items.
Proof.
  intros Hh r1 r2.
  assert (Hnil : len ([] : list Item) = 0) by reflexivity.
  assert (H0 : recovering retry 0
                 (progress_start total
                    (@__init__ Item Exn H B W retry exp h0 sched))).
  { unfold recovering, backlog. simpl. rewrite Hnil.
    split; [reflexivity |]. split; [reflexivity |].
    split; [constructor | reflexivity]. }
  destruct (iterator_keeps Z (recovering retry) work_handler
              (fun M0 batch => M0 + len batch)
              (fun x i w HI _ => recovering_step retry x i w HI)
              (fun x s w HI => HI)
              (fun x batch w =>
                 recovering_enqueue retry x work_handler batch w Hh)
              items [] B 0 _ H0)
    as (bs & rest & HI1 & Hcat & Hrest & Hraise).
  change (dynamic_batch_iterator_from items batch_size
            (submit work_handler) [] B
            (progress_start total (__init__ B W retry exp h0 sched)))
    with r1 in HI1, Hrest, Hraise.
  rewrite fold_push_len in HI1. simpl in Hcat.
  assert (Hout1 : snd r1 = None).
  { destruct (snd r1) as [e |] eqn:Hr; [| reflexivity].
    destruct HI1 as (Hte & _). rewrite (Hraise e eq_refl) in Hte.
    discriminate Hte. }
  rewrite (Hrest Hout1), app_nil_r in Hcat. rewrite Hcat in HI1.
  destruct (shutdown_keeps unit (fun _ => recovering retry (0 + len items))
              (fun x i w HI _ => recovering_step retry _ i w HI)
              (fun x s w HI => HI) tt (fst r1) HI1)
    as (w' & (Hte2 & _ & _ & HM2) & Hpend & Hsh).
  fold r2 in Hsh. rewrite Hte2 in Hsh.
  unfold backlog in HM2. rewrite Hpend in HM2. simpl in HM2.
  rewrite Hnil in HM2.
  rewrite Hsh. simpl.
  split; [exact Hout1 |]. split; [reflexivity |]. split; [exact Hte2 |].
  split; [exact Hpend |]. split; [reflexivity | lia].
Qed.

(** ** Runs in which every batch fails for good *)

(** The one step of a unit whose handler raises [e], an exception
    outside [retry_exceptions]: the invocation, which ends the unit. *)
Lemma unit_step_doomed e (t : @Task Item Exn H) w :
  always_raises e (task_handler t) -> task_stage t = AtCall ->
  retry_exceptions w e = false ->
  task_stage (fst (unit_step t w)) = Ended (Some e) /\
  processed (snd (unit_step t w)) = processed w.
Proof.
  intros Hh Hst Hre. unfold unit_step. rewrite Hst.
  unfold call_handler. simpl.
  specialize (Hh (hstate w) (task_batch t)).
  destruct (task_handler t (hstate w) (task_batch t)) as [h' [e' |]];
    simpl in *; [| discriminate Hh].
  injection Hh as ->. rewrite Hre. simpl. split; reflexivity.
Qed.

Lemma doomed_step e i w :
  doomed e w ->
  doomed e (step_at i w) /\
  (failure_due e w -> failure_due e (step_at i w)).
Proof.
  intros (Hre & Hpr & Hfin & Hte & Hall).
  destruct (step_at_cases i w)
    as [-> | (l1 & t & l2 & Hpend & _ & Hcase)].
  { split; [| trivial]. split; [| split; [| split; [| split]]]; assumption. }
  rewrite Hpend in Hall.
  apply Forall_app in Hall as (Hl1 & Hall).
  apply Forall_cons in Hall as ((Hh & Hst) & Hl2).
  pose proof (unit_step_frame t w)
    as (_ & _ & _ & Hte' & _ & _ & Hre' & _ & Hfin' & _).
  destruct (unit_step_doomed e t w Hh Hst Hre) as (Hst' & Hpr').
  destruct Hcase as [(o & Ho & ->) | (Hne & _)].
  2: { unfold has_ended in Hne. rewrite Hst' in Hne. discriminate Hne. }
  rewrite Hst' in Ho. injection Ho as <-.
  assert (Hlatched :
            terminal_error
              (latch (Some e) (set_pending (l1 ++ l2) (snd (unit_step t w))))
            = Some e).
  { unfold latch. simpl. rewrite Hte'.
    destruct Hte as [Ht | Ht]; rewrite Ht; simpl; [reflexivity |].
    rewrite Hte'. exact Ht. }
  split; [| intros _; left; exact Hlatched].
  destruct (latch_cases (Some e)
              (set_pending (l1 ++ l2) (snd (unit_step t w))))
    as [Heq | (e0 & _ & _ & Heq)]; rewrite Heq in Hlatched |- *.
  - unfold doomed. simpl.
    split; [rewrite Hre'; exact Hre |]. split; [congruence |].
    split; [congruence |].
    split; [right; exact Hlatched |].
    apply Forall_app. split; assumption.
  - unfold doomed. simpl.
    split; [rewrite Hre'; exact Hre |]. split; [congruence |].
    split; [congruence |].
    split; [right; exact Hlatched |].
    apply Forall_app. split; assumption.
Qed.

Lemma fold_push_true (bs : list (list Item)) (x : bool) :
  bs <> [] ->
  fold_left (fun (_ : bool) (_ : list Item) => true) bs x = true.
Proof.
  intros Hne. destruct bs as [| b bs]; [contradiction |]. simpl.
  clear. induction bs as [| b' bs IH]; simpl; [reflexivity | exact IH].
Qed.

(** X12: when the handler raises the same exception outside
    [retry_exceptions] on every batch and there is at least one item,
    [shutdown] raises that exception whatever the pool scheduled, the
    progress report is not closed, and the progress tracker stands at 0;
    [execute] itself either returns or raises that exception. *)
Theorem fatal_error_surfaces_at_shutdown
    (B W : Z) (retry : Exn -> bool) (exp : bool) (h0 : H)
    (sched : list Turn) items work_handler (total : option Z) (e : Exn) :
  items <> [] -> always_raises e work_handler -> retry e = false ->
  let r1 :=
    execute items work_handler total (__init__ B W retry exp h0 sched) in
  let r2 := shutdown (fst r1) in
  (snd r1 = None \/ snd r1 = Some e) /\
  snd r2 = Some e /\
  processed (fst r2) = 0 /\
  finished (fst r2) = false /\
  pending (fst r2) = [].
Proof.
  intros Hne Hh Hre r1 r2.
  set (I := fun (x : bool) (w : @World Item Exn H) =>
              doomed e w /\ (x = true -> failure_due e w)).
  assert (I_step : forall x i w,
            I x w -> (i < Z.to_nat (max_workers w))%nat \/ i = O ->
            I x (step_at i w)).
  { intros x i w (Hd & Hf) _.
    destruct (doomed_step e i w Hd) as (Hd' & Hf').
    split; [exact Hd' |]. intros Hx. apply Hf', Hf, Hx. }
  assert (I_schedule : forall x s w, I x w -> I x (set_schedule s w))
    by (intros x s w HI; exact HI).
  assert (I_enqueue : forall (x : bool) batch w,
            I x w ->
            I true (set_pending
                      (pending w ++ [mkTask work_handler batch AtCall]) w)).
  { intros x batch w ((H1 & H2 & H3 & H4 & H5) & _). split.
    - unfold doomed. simpl.
      split; [exact H1 |]. split; [exact H2 |]. split; [exact H3 |].
      split; [exact H4 |].
      apply Forall_app. split; [exact H5 |].
      constructor; [split; [exact Hh | reflexivity] | constructor].
    - intros _. right. simpl. destruct (pending w); discriminate. }
  assert (H0 : I false (progress_start total
                          (@__init__ Item Exn H B W retry exp h0 sched))).
  { split; [| discriminate]. unfold doomed. simpl.
    split; [exact Hre |]. split; [reflexivity |]. split; [reflexivity |].
    split; [left; reflexivity | constructor]. }
  destruct (iterator_keeps bool I work_handler (fun _ _ => true)
              I_step I_schedule I_enqueue items [] B false _ H0)
    as (bs & rest & HI1 & Hcat & Hrest & Hraise).
  change (dynamic_batch_iterator_from items batch_size
            (submit work_handler) [] B
            (progress_start total (__init__ B W retry exp h0 sched)))
    with r1 in HI1, Hrest, Hraise.
  simpl in Hcat.
  assert (Hout1 : (snd r1 = None \/ snd r1 = Some e) /\
                  failure_due e (fst r1)).
  { destruct HI1 as (Hd1 & Hf1).
    destruct (snd r1) as [e' |] eqn:Hr.
    - pose proof (Hraise e' eq_refl) as Hte.
      destruct Hd1 as (_ & _ & _ & [Hnone | Hsome] & _);
        [rewrite Hnone in Hte; discriminate Hte |].
      rewrite Hsome in Hte. injection Hte as <-.
      split; [right; reflexivity | left; exact Hsome].
    - split; [left; reflexivity |]. apply Hf1, fold_push_true.
      intros ->. rewrite (Hrest eq_refl) in Hcat. simpl in Hcat.
      apply Hne. symmetry. exact Hcat. }
  destruct Hout1 as (Hout1 & Hdue).
  assert (H1 : I true (fst r1)) by (split; [apply HI1 | intros _; exact Hdue]).
  destruct (shutdown_keeps bool I I_step I_schedule true (fst r1) H1)
    as (w' & (Hd2 & Hf2) & Hpend & Hsh).
  fold r2 in Hsh.
  destruct (Hf2 eq_refl) as [Hte | Hp]; [| contradiction].
  rewrite Hte in Hsh. rewrite Hsh. simpl.
  destruct Hd2 as (_ & Hpr & Hfin & _).
  split; [exact Hout1 |]. split; [reflexivity |].
  split; [exact Hpr |]. split; [exact Hfin | exact Hpend].
Qed.

End WithTypes.

(** ** The properties at concrete inputs *)

Lemma success_is_tracked_once_witness :
  succeed (hstate (exponential_executor 4)) [1; 2; 3] = (1%nat, None) /\
  snd (_fail_safe_execute succeed [1; 2; 3] (exponential_executor 4))
  = None /\
  calls (fst (_fail_safe_execute succeed [1; 2; 3]
                (exponential_executor 4)))
  = [[1; 2; 3]] /\
  processed (fst (_fail_safe_execute succeed [1; 2; 3]
                    (exponential_executor 4)))
  = 3.
Proof.
  split; [reflexivity |].
  destruct (success_is_tracked_once succeed [1; 2; 3]
              (exponential_executor 4) 1%nat eq_refl)
    as (Hout & Hcalls & _ & Hpr & _).
  split; [exact Hout |]. split; [exact Hcalls | exact Hpr].
Defined.

Lemma singleton_batch_is_retried_once_witness :
  flaky (hstate (exponential_executor 4)) [7]
  = (1%nat, Some ConnectionError) /\
  retry_exceptions (exponential_executor 4) ConnectionError = true /\
  batch_size (fst (_fail_safe_execute flaky [7] (exponential_executor 4)))
  = 4 /\
  calls (fst (_fail_safe_execute flaky [7] (exponential_executor 4)))
  = [[7]; [7]] /\
  snd (_fail_safe_execute flaky [7] (exponential_executor 4)) = None.
Proof.
  split; [reflexivity |]. split; [reflexivity |].
  destruct (singleton_batch_is_retried_once flaky 7
              (exponential_executor 4) 1%nat ConnectionError
              eq_refl eq_refl)
    as (Hbs & _ & Hcalls & Hout & _).
  split; [exact Hbs |]. split; [exact Hcalls | exact Hout].
Defined.

Lemma shrink_is_exact_below_2_53_witness :
  poison 0 ValueError (hstate (exponential_executor 4)) [1; 2; 3; 4]
  = (1%nat, Some ConnectionError) /\
  retry_exceptions (exponential_executor 4) ConnectionError = true /\
  batch_size (exponential_executor 4) < 2 ^ 53 /\
  batch_size (fst (_fail_safe_execute (poison 0 ValueError) [1; 2; 3; 4]
                     (exponential_executor 4)))
  = 2.
Proof.
  assert (Hlt : batch_size (exponential_executor 4) < 2 ^ 53)
    by (vm_compute; reflexivity).
  split; [reflexivity |]. split; [reflexivity |]. split; [exact Hlt |].
  apply (shrink_is_exact_below_2_53 (poison 0 ValueError) [1; 2; 3; 4]
           (exponential_executor 4) 1%nat ConnectionError
           eq_refl eq_refl Hlt).
Defined.

Lemma singles_only_recovers : recovers_singly RETRY_EXCEPTIONS singles_only.
Proof.
  split.
  - intros h batch e. unfold singles_only.
    destruct batch as [| item [| item' rest]]; simpl; intros Heq;
      try discriminate Heq; injection Heq as <-; reflexivity.
  - intros h item. reflexivity.
Defined.

Lemma recovered_errors_never_abort_witness :
  recovers_singly RETRY_EXCEPTIONS singles_only /\
  snd (shutdown (fst (execute [1; 2; 3; 4; 5; 6; 7; 8; 9; 10]
                        singles_only None (exponential_executor 4))))
  = None /\
  processed (fst (shutdown (fst (execute [1; 2; 3; 4; 5; 6; 7; 8; 9; 10]
                                   singles_only None
                                   (exponential_executor 4)))))
  = 10.
Proof.
  split; [exact singles_only_recovers |].
  destruct (recovered_errors_never_abort 4 2 RETRY_EXCEPTIONS true O
              younger_first [1; 2; 3; 4; 5; 6; 7; 8; 9; 10] singles_only
              None singles_only_recovers)
    as (_ & Hout & _ & _ & _ & Hpr).
  split; [exact Hout | exact Hpr].
Defined.

Lemma fatal_error_surfaces_at_shutdown_witness :
  [1; 2; 3] <> [] /\ always_raises ValueError fatal /\
  RETRY_EXCEPTIONS ValueError = false /\
  snd (shutdown (fst (execute [1; 2; 3] fatal None
                        (exponential_executor 4))))
  = Some ValueError /\
  processed (fst (shutdown (fst (execute [1; 2; 3] fatal None
                                   (exponential_executor 4)))))
  = 0.
Proof.
  assert (Hne : [1; 2; 3] <> ([] : list Z)) by discriminate.
  assert (Hf : always_raises ValueError fatal)
    by (intros h batch; reflexivity).
  split; [exact Hne |]. split; [exact Hf |]. split; [reflexivity |].
  destruct (fatal_error_surfaces_at_shutdown 4 2 RETRY_EXCEPTIONS true O
              younger_first [1; 2; 3] fatal None ValueError
              Hne Hf eq_refl)
    as (_ & Hout & Hpr & _).
  split; [exact Hout | exact Hpr].
Defined.

Lemma shrinks_are_counted_witness :
  0 < 4 /\
  batch_size
    (fst (shutdown (fst (execute [1; 2; 3; 4; 5; 6; 7; 8; 9; 10]
                           singles_only None
                           (single_worker_executor 4 false)))))
  + Z.of_nat
      (length
         (size_writes
            (fst (shutdown (fst (execute [1; 2; 3; 4; 5; 6; 7; 8; 9; 10]
                                   singles_only None
                                   (single_worker_executor 4 false)))))))
  = 4.
Proof.
  assert (H4 : 0 < 4) by lia.
  split; [exact H4 |].
  apply (shrinks_are_counted 4 RETRY_EXCEPTIONS false O younger_first
           [1; 2; 3; 4; 5; 6; 7; 8; 9; 10] singles_only None H4).
  reflexivity.
Defined.

Lemma exponential_shrinks_are_logarithmic_witness :
  0 < 4 < 2 ^ 53 /\
  Z.of_nat
    (length
       (size_writes
          (fst (shutdown (fst (execute [1; 2; 3; 4; 5; 6; 7; 8; 9; 10]
                                 singles_only None
                                 (single_worker_executor 4 true)))))))
  <= Z.log2 4.
Proof.
  assert (H4 : 0 < 4 < 2 ^ 53) by (split; vm_compute; reflexivity).
  split; [exact H4 |].
  apply (exponential_shrinks_are_logarithmic 4 RETRY_EXCEPTIONS O
           younger_first [1; 2; 3; 4; 5; 6; 7; 8; 9; 10] singles_only
           None H4).
Defined.

End ExecutorMoreFacts.

(* ===================================================================== *)
(** * Further properties of the action mapper                             *)
(* ===================================================================== *)

Module MapperMoreFacts.
Import ActionMapper ActionMapperFacts.
Local Open Scope string_scope.

Section WithValues.

Context {Value : Type}.
Variable str : string -> Value.
Implicit Types (heap : @Heap Value) (action transaction_dict obj : nat).
Implicit Types (result : gmap string Value).

(** The dictionary display raises on the first subscription that finds
    nothing, and only then. *)
Lemma build_result_first_missing
    (action transaction_dict : gmap string Value) :
  match first_missing (subscriptions action transaction_dict) with
  | Some key => build_result str action transaction_dict = inl key
  | None => exists result,
      build_result str action transaction_dict = inr result
  end.
Proof.
  unfold subscriptions, build_result, getitem. simpl.
  destruct (transaction_dict !! "trx.hash"); [| reflexivity].
  destruct (transaction_dict !! "block_hash"); [| reflexivity].
  destruct (action !! "account"); [| reflexivity].
  destruct (action !! "name"); [| reflexivity].
  destruct (action !! "authorization"); [| reflexivity].
  destruct (action !! "data"); [| reflexivity].
  eexists. reflexivity.
Qed.

(** X13: [action_to_dict] raises [KeyError(key)] exactly when [key] is the
    first key, in the order ['trx.hash'], ['block_hash'] (of the
    transaction), ['account'], ['name'], ['authorization'], ['data'] (of
    the action), that its dictionary lacks; a key missing later in the
    order is never the one reported. *)
Theorem key_error_names_first_missing_key
    heap action transaction_dict key :
  ended (action_to_dict str heap action transaction_dict) = KeyError key <->
  first_missing (subscriptions (heap action) (heap transaction_dict))
  = Some key.
Proof.
  pose proof (build_result_first_missing (heap action)
                (heap transaction_dict)) as Hb.
  unfold action_to_dict.
  destruct (first_missing
              (subscriptions (heap action) (heap transaction_dict)))
    as [k |].
  - rewrite Hb. simpl. split; intros Heq; congruence.
  - destruct Hb as [result Hb]. rewrite Hb. simpl.
    split; intros Heq; discriminate.
Qed.

(** X14: a call that raises [KeyError] has no effect: the [action]
    dictionary still has all its keys, the transaction dictionary is
    unchanged, as is every other object, and nothing is printed. *)
Theorem key_error_leaves_action_intact
    heap action transaction_dict key :
  ended (action_to_dict str heap action transaction_dict) = KeyError key ->
  heap_after (action_to_dict str heap action transaction_dict) action
  = heap action /\
  heap_after (action_to_dict str heap action transaction_dict)
    transaction_dict
  = heap transaction_dict /\
  heap_after (action_to_dict str heap action transaction_dict) = heap /\
  printed (action_to_dict str heap action transaction_dict) = None.
Proof.
  unfold action_to_dict.
  destruct (build_result str (heap action) (heap transaction_dict))
    as [k | result]; simpl; [| discriminate].
  intros _. repeat split; reflexivity.
Qed.

(** X15: [action_to_dict] cannot be applied twice to the same action
    object: after a call that returned, a second call with the same
    arguments, on the heap as the first one left it, raises
    [KeyError('account')]. *)
Theorem second_call_raises_key_error
    heap action transaction_dict result :
  ended (action_to_dict str heap action transaction_dict) = Return result ->
  ended (action_to_dict str
           (heap_after (action_to_dict str heap action transaction_dict))
           action transaction_dict)
  = KeyError "account".
Proof.
  intros Hret.
  assert (Hfirst : first_missing
                     (subscriptions (heap action) (heap transaction_dict))
                   = None).
  { destruct (first_missing
                (subscriptions (heap action) (heap transaction_dict)))
      as [k |] eqn:Hk; [| reflexivity].
    apply key_error_names_first_missing_key in Hk.
    rewrite Hk in Hret. discriminate Hret. }
  assert (Hheap : heap_after (action_to_dict str heap action
                                transaction_dict)
                  = pop_fields action heap).
  { revert Hret. unfold action_to_dict.
    destruct (build_result str (heap action) (heap transaction_dict));
      simpl; [discriminate | reflexivity]. }
  rewrite Hheap.
  apply key_error_names_first_missing_key.
  assert (Hacc : pop_fields action heap action !! "account" = None).
  { rewrite pop_fields_lookup. apply decide_True.
    unfold popped_keys. repeat constructor. }
  assert (Htx : forall key,
            key ∉ popped_keys ->
            pop_fields action heap transaction_dict !! key
            = heap transaction_dict !! key).
  { intros key Hout.
    destruct (decide (transaction_dict = action)) as [-> | Hne].
    - rewrite pop_fields_lookup. by rewrite decide_False.
    - rewrite pop_fields_other by exact Hne. reflexivity. }
  unfold subscriptions in *. simpl in *.
  rewrite Hacc, !Htx.
  - destruct (heap transaction_dict !! "trx.hash");
      [| discriminate Hfirst].
    destruct (heap transaction_dict !! "block_hash");
      [reflexivity | discriminate Hfirst].
  - unfold popped_keys. intros Hin.
    repeat (apply elem_of_cons in Hin as [Heq | Hin]; [discriminate Heq |]).
    apply elem_of_nil in Hin. exact Hin.
  - unfold popped_keys. intros Hin.
    repeat (apply elem_of_cons in Hin as [Heq | Hin]; [discriminate Heq |]).
    apply elem_of_nil in Hin. exact Hin.
Qed.

Lemma dom_pop_fields action heap :
  dom (pop_fields action heap action)
  = dom (heap action) ∖ list_to_set popped_keys.
Proof.
  apply set_eq. intros key.
  rewrite elem_of_difference, elem_of_list_to_set, !elem_of_dom,
    pop_fields_lookup.
  destruct (decide (key ∈ popped_keys)) as [Hin | Hout].
  - split; [intros [v Hv]; discriminate Hv | intros [_ Hno]; contradiction].
  - tauto.
Qed.

(** X16: after a call that returned, line 48 has printed the leftover
    action exactly when the action had a key other than the five popped
    ones, and what it printed is the action as the call left it. *)
Theorem leftover_keys_are_printed heap action transaction_dict result :
  ended (action_to_dict str heap action transaction_dict) = Return result ->
  (printed (action_to_dict str heap action transaction_dict) = None <->
   forall key, is_Some (heap action !! key) -> key ∈ popped_keys) /\
  (forall d,
     printed (action_to_dict str heap action transaction_dict) = Some d ->
     d = heap_after (action_to_dict str heap action transaction_dict)
           action /\
     exists key, is_Some (heap action !! key) /\ key ∉ popped_keys).
Proof.
  unfold action_to_dict.
  destruct (build_result str (heap action) (heap transaction_dict))
    as [k | res]; simpl; [discriminate |].
  intros _.
  assert (Hdom : dom (pop_fields action heap action) = ∅ <->
                 forall key,
                   is_Some (heap action !! key) -> key ∈ popped_keys).
  { rewrite dom_pop_fields. split.
    - intros Hempty key Hin. apply elem_of_dom in Hin.
      destruct (decide (key ∈ popped_keys)) as [Hyes | Hno]; [exact Hyes |].
      exfalso.
      assert (Hk : key ∈ dom (heap action) ∖ list_to_set popped_keys).
      { apply elem_of_difference. split; [exact Hin |].
        rewrite elem_of_list_to_set. exact Hno. }
      rewrite Hempty in Hk. apply elem_of_empty in Hk. exact Hk.
    - intros Hall. apply set_eq. intros key.
      split; [| intros Hk; apply elem_of_empty in Hk; contradiction].
      intros Hk. apply elem_of_difference in Hk as [Hin Hout].
      apply elem_of_dom in Hin. specialize (Hall key Hin).
      exfalso. apply Hout. rewrite elem_of_list_to_set. exact Hall. }
  destruct (decide (dom (pop_fields action heap action) = ∅))
    as [Hempty | Hleft].
  - split; [split; [intros _; apply Hdom, Hempty | reflexivity] |].
    intros d Hd. discriminate.
  - split.
    + split; [discriminate |]. intros Hall. exfalso. apply Hleft, Hdom, Hall.
    + intros d Hd. injection Hd as <-. split; [reflexivity |].
      destruct (set_choose_or_empty (dom (pop_fields action heap action)))
        as [[key Hk] | Hemp].
      * exists key. rewrite dom_pop_fields in Hk.
        apply elem_of_difference in Hk as [Hin Hout].
        split; [apply elem_of_dom, Hin |].
        intros Hyes. apply Hout. rewrite elem_of_list_to_set. exact Hyes.
      * exfalso. apply Hleft, leibniz_equiv, Hemp.
Qed.

(** X17: what [action_to_dict] returns or raises depends on the seven
    keys it reads and on nothing else: two actions that agree on
    ['account'], ['name'], ['authorization'], ['data'] and ['hex_data'],
    with transactions that agree on ['trx.hash'] and ['block_hash'], give
    the same result. *)
Theorem result_depends_on_read_keys_only
    heap1 heap2 action1 action2 transaction_dict1 transaction_dict2 :
  (forall key, key ∈ popped_keys ->
     heap1 action1 !! key = heap2 action2 !! key) ->
  heap1 transaction_dict1 !! "trx.hash"
  = heap2 transaction_dict2 !! "trx.hash" ->
  heap1 transaction_dict1 !! "block_hash"
  = heap2 transaction_dict2 !! "block_hash" ->
  ended (action_to_dict str heap1 action1 transaction_dict1)
  = ended (action_to_dict str heap2 action2 transaction_dict2).
Proof.
  intros Hact Hth Hbh.
  assert (Hb : build_result str (heap1 action1) (heap1 transaction_dict1)
               = build_result str (heap2 action2)
                   (heap2 transaction_dict2)).
  { unfold build_result, getitem. rewrite Hth, Hbh.
    rewrite (Hact "account"), (Hact "name"), (Hact "authorization"),
      (Hact "data"), (Hact "hex_data")
      by (unfold popped_keys; repeat constructor).
    reflexivity. }
  unfold action_to_dict. rewrite Hb.
  destruct (build_result str (heap2 action2) (heap2 transaction_dict2));
    reflexivity.
Qed.

End WithValues.

(** ** The properties at concrete inputs *)

Lemma key_error_leaves_action_intact_witness :
  ended (action_to_dict id (heap_of nameless_action transfer_transaction)
           0 1)
  = KeyError "name" /\
  heap_after
    (action_to_dict id (heap_of nameless_action transfer_transaction) 0 1)
    0%nat
  = nameless_action /\
  printed
    (action_to_dict id (heap_of nameless_action transfer_transaction) 0 1)
  = None.
Proof.
  assert (Hk : ended (action_to_dict id
                        (heap_of nameless_action transfer_transaction) 0 1)
               = KeyError "name")
    by (vm_compute; reflexivity).
  split; [exact Hk |].
  destruct (key_error_leaves_action_intact id
              (heap_of nameless_action transfer_transaction) 0 1
              "name" Hk) as (Hact & _ & _ & Hpr).
  split; [exact Hact | exact Hpr].
Defined.

Lemma second_call_raises_key_error_witness :
  ended (action_to_dict id transfer_heap 0 1) = Return transfer_result /\
  ended (action_to_dict id
           (heap_after (action_to_dict id transfer_heap 0 1)) 0 1)
  = KeyError "account".
Proof.
  assert (Hret : ended (action_to_dict id transfer_heap 0 1)
                 = Return transfer_result)
    by (vm_compute; reflexivity).
  split; [exact Hret |].
  exact (second_call_raises_key_error id transfer_heap 0 1
           transfer_result Hret).
Defined.

Lemma leftover_keys_are_printed_witness :
  ended (action_to_dict id transfer_heap 0 1) = Return transfer_result /\
  printed (action_to_dict id transfer_heap 0 1)
  = Some (<["receipt" := "r1"]> ∅) /\
  exists key, is_Some (transfer_heap 0%nat !! key) /\ key ∉ popped_keys.
Proof.
  assert (Hret : ended (action_to_dict id transfer_heap 0 1)
                 = Return transfer_result)
    by (vm_compute; reflexivity).
  assert (Hpr : printed (action_to_dict id transfer_heap 0 1)
                = Some (<["receipt" := "r1"]> ∅))
    by (vm_compute; reflexivity).
  split; [exact Hret |]. split; [exact Hpr |].
  destruct (leftover_keys_are_printed id transfer_heap 0 1
              transfer_result Hret) as (_ & Hsome).
  exact (proj2 (Hsome _ Hpr)).
Defined.

Lemma result_depends_on_read_keys_only_witness :
  (forall key, key ∈ popped_keys ->
     transfer_heap 0%nat !! key
     = heap_of (delete "receipt" transfer_action) transfer_transaction
         0%nat !! key) /\
  ended (action_to_dict id transfer_heap 0 1)
  = ended (action_to_dict id
             (heap_of (delete "receipt" transfer_action)
                transfer_transaction) 0 1).
Proof.
  assert (Hagree : forall key, key ∈ popped_keys ->
             transfer_heap 0%nat !! key
             = heap_of (delete "receipt" transfer_action)
                 transfer_transaction 0%nat !! key).
  { intros key Hin. symmetry.
    change (delete "receipt" transfer_action !! key
            = transfer_action !! key).
    apply lookup_delete_ne. intros <-.
    unfold popped_keys in Hin.
    repeat (apply elem_of_cons in Hin as [Heq | Hin];
            [discriminate Heq |]).
    apply elem_of_nil in Hin. exact Hin. }
  split; [exact Hagree |].
  exact (result_depends_on_read_keys_only id transfer_heap
           (heap_of (delete "receipt" transfer_action) transfer_transaction)
           0%nat 0%nat 1%nat 1%nat Hagree eq_refl eq_refl).
Defined.

End MapperMoreFacts.
